(** * HLS source of rtsp-simple-server: a shallow embedding of
      [internal/core/hls_source.go] and the properties of its
      attempt ("instance") logic.

    The Go code is translated function by function.  Mutable fields of
    [hlsSourceInstance] and the outside world (HTTP server, wall clock,
    cancellation, router) are threaded through a small state monad that
    also records every call to a collaborator as an [event].  Third-party
    packages (net/url, m3u8, astits, gortsplib, rtph264) and the sibling
    packages [internal/h264] and [internal/aac] are taken as an instance of
    the class [Libs]. *)

From Stdlib Require Import ZArith List Bool Lia.
From Stdlib.Strings Require Import String Ascii Byte.
Import ListNotations.
Local Open Scope Z_scope.
Local Open Scope string_scope.

Set Implicit Arguments.

(* ================================================================== *)
(** * Go values *)

Definition bytes := list byte.

(** Go [error] values.  [ErrNoMorePackets] is the sentinel of astits that
    the code compares with [==]; [Errorf] is a value built by
    [fmt.Errorf]; [ErrLib] is any other error value handed back by a
    library. *)
Inductive error : Type :=
| ErrNoMorePackets
| ErrLib (msg : string)
| Errorf (format : string) (args : list fmtarg)
with fmtarg : Type :=
| ArgInt (n : Z)
| ArgErr (e : error).

Definition is_ErrNoMorePackets (e : error) : bool :=
  match e with ErrNoMorePackets => true | _ => false end.

(** int64 arithmetic of [time.Duration]: results wrap around. *)
Definition wrap64 (z : Z) : Z := (z + 2 ^ 63) mod 2 ^ 64 - 2 ^ 63.

(** [time.Second], in nanoseconds. *)
Definition Second : Z := 1000000000.

Definition hlsSourceRetryPause : Z := 5 * Second.
Definition hlsSourcePauseWhenEmpty : Z := 5 * Second.

(* ================================================================== *)
(** * Package [path] of the Go standard library

    [gopath.Dir] and [gopath.Join] are written on '/'-separated
    components, after the four rules of [path.Clean]: collapse repeated
    separators, drop ".", let ".." cancel the element before it, drop
    ".." at the root. *)

Definition slash : ascii := "/"%char.

Fixpoint has_slash (s : string) : bool :=
  match s with
  | EmptyString => false
  | String c r => Ascii.eqb c slash || has_slash r
  end.

(** [strings.Split s "/"], never empty. *)
Fixpoint split_slash (s : string) : list string :=
  match s with
  | EmptyString => [EmptyString]
  | String c r =>
      if Ascii.eqb c slash then EmptyString :: split_slash r
      else match split_slash r with
           | [] => [String c EmptyString]
           | h :: t => String c h :: t
           end
  end.

Definition rooted (s : string) : bool :=
  match s with
  | String c _ => Ascii.eqb c slash
  | EmptyString => false
  end.

(** One element of the path against the output written so far ([out] holds
    the elements kept, the last one first). *)
Definition clean_elem (root : bool) (out : list string) (e : string) : list string :=
  if String.eqb e "" then out
  else if String.eqb e "." then out
  else if String.eqb e ".." then
    match out with
    | top :: below =>
        if String.eqb top ".." then ".." :: out else below
    | [] => if root then [] else [".."]
    end
  else e :: out.

Definition clean_elems (root : bool) (es : list string) : list string :=
  rev (fold_left (clean_elem root) es []).

Fixpoint join_slash (es : list string) : string :=
  match es with
  | [] => ""
  | [e] => e
  | e :: r => e ++ "/" ++ join_slash r
  end.

Definition Clean (p : string) : string :=
  let root := rooted p in
  let body := join_slash (clean_elems root (split_slash p)) in
  if root then String slash body
  else if String.eqb body "" then "." else body.

(** The directory half of [path.Split]: everything up to and including
    the last slash. *)
Fixpoint split_dir (p : string) : string :=
  match p with
  | EmptyString => ""
  | String c r => if has_slash p then String c (split_dir r) else ""
  end.

Definition gopath_Dir (p : string) : string := Clean (split_dir p).

Fixpoint join_buf (buf : string) (elem : list string) : string :=
  match elem with
  | [] => buf
  | e :: r =>
      let nonempty := negb (String.eqb buf "") in
      if nonempty || negb (String.eqb e "") then
        join_buf ((if nonempty then buf ++ "/" else buf) ++ e) r
      else join_buf buf r
  end.

Definition gopath_Join (elem : list string) : string :=
  if forallb (fun e => String.eqb e "") elem then ""
  else Clean (join_buf "" elem).

(* ================================================================== *)
(** * net/url *)

Record Userinfo : Type := {
  username : string;
  password : string;
  passwordSet : bool
}.

Record URL : Type := {
  Scheme : string;
  Opaque : string;
  User : option Userinfo;
  Host : string;
  Path : string;
  RawPath : string;
  ForceQuery : bool;
  RawQuery : string;
  Fragment : string;
  RawFragment : string
}.

(** [URL.IsAbs]: the URL has a non-empty scheme. *)
Definition IsAbs (u : URL) : bool := negb (String.eqb (Scheme u) "").

(* ================================================================== *)
(** * m3u8 playlists *)

Record VariantParams : Type := { Bandwidth : Z }.

Record Variant : Type := {
  Variant_URI : string;
  Variant_Params : VariantParams
}.

Record MediaSegment : Type := { URI : string }.

(** [Segments] is a slice of pointers whose unused tail is nil. *)
Record MediaPlaylistT : Type := { Segments : list (option MediaSegment) }.
Record MasterPlaylistT : Type := { Variants : list Variant }.

(** The dynamic type behind the [m3u8.Playlist] interface. *)
Inductive Playlist : Type :=
| MediaPlaylist (pl : MediaPlaylistT)
| MasterPlaylist (pl : MasterPlaylistT)
| OtherPlaylist.

(* ================================================================== *)
(** * astits demuxer data *)

Definition StreamTypeAACAudio : Z := 15.
Definition StreamTypeH264Video : Z := 27.

Record PMTElementaryStream : Type := {
  ElementaryPID : Z;
  StreamType : Z
}.

Record PMTData : Type := { ElementaryStreams : list PMTElementaryStream }.

Record ClockReference : Type := { Base : Z }.
Record PESOptionalHeader : Type := { PTS : option ClockReference }.
Record PESHeader : Type := { OptionalHeader : option PESOptionalHeader }.
Record PESData : Type := { Data : bytes; Header : PESHeader }.

Record DemuxerData : Type := {
  PID : Z;
  PMT : option PMTData;
  PES : option PESData
}.

(** A demuxer over a response body: the data it still has to deliver, each
    with the time its read blocks, and the error [NextData] returns once
    they are exhausted ([ErrNoMorePackets] at a clean end of stream). *)
Record Demuxer : Type := {
  pending : list (Z * DemuxerData);
  final : error
}.

(** Modelled from the spec: package [internal/h264] is not under src/; the
    NAL unit types it names (SPS, PPS, access-unit delimiter, and the
    coded-picture types IDR and non-IDR slice of the glossary) carry the
    codes of the H.264 standard. *)
Definition NALUTypeNonIDR : Z := 1.
Definition NALUTypeIDR : Z := 5.
Definition NALUTypeSPS : Z := 7.
Definition NALUTypePPS : Z := 8.
Definition NALUTypeAccessUnitDelimiter : Z := 9.

(** [h264.NALUType(nalu[0] & 0x1F)] *)
Definition NALUType (b : byte) : Z := Z.land (Z.of_N (Byte.to_N b)) 31.

(* ================================================================== *)
(** * HTTP *)

Record Response : Type := { StatusCode : Z; Body : bytes }.
Definition StatusOK : Z := 200.

(** What the server does with one request: how long [Do] blocks and what
    it returns. *)
Record Reply : Type := {
  latency : Z;
  answer : Response + error
}.

(* ================================================================== *)
(** * Collaborators *)

(** Third-party and sibling packages the file calls.  A Go result
    [(T, error)] is a sum: [inl] the value, [inr] the error. *)
Class Libs : Type := {
  Track : Type;                 (* gortsplib.Track *)
  Encoder : Type;               (* rtph264.Encoder *)
  stream : Type;                (* the router's stream object *)
  ADTSPacket : Type;            (* aac.ADTSPacket *)
  url_Parse : string -> URL + error;
  URL_String : URL -> string;
  m3u8_DecodeFrom : bytes -> Playlist + error;
  astits_NewDemuxer : bytes -> Demuxer;
  h264_DecodeAnnexB : bytes -> list bytes + error;
  aac_DecodeADTS : bytes -> list ADTSPacket + error;
  gortsplib_NewTrackH264 : Z -> bytes -> bytes -> Track + error;
  Track_ID : Track -> Z;
  rtph264_NewEncoder : Z -> Encoder;
  rtph264_Encode : Encoder -> list bytes -> Z -> (list bytes + error) * Encoder
}.

(** Modelled from the spec: the levels of the leveled log sink
    ([internal/logger], not under src/). *)
Inductive Level : Type := Debug | Info | Warn.

(** How a Go call ends: with a value (a nil error), with a non-nil error,
    with a run-time panic, or, for the fuelled loop, out of fuel. *)
Inductive result (A : Type) : Type :=
| Ok (a : A)
| Fail (e : error)
| Panic
| OutOfFuel.

Arguments Fail {A} e.
Arguments Panic {A}.
Arguments OutOfFuel {A}.

Local Open Scope list_scope.
Local Open Scope Z_scope.

Section Machine.

Context {L : Libs}.

(** Modelled from the spec: [pathSourceStaticSetReadyRes] is declared
    outside src/ (path.go).  The readiness call returns either an error or
    a publish handle; the file reads them as the fields [Err] and
    [Stream]. *)
Record pathSourceStaticSetReadyRes : Type := {
  Stream : option stream;
  Err : option error
}.

(** Every call that leaves the attempt. *)
Inductive event : Type :=
| EvLog (level : Level) (format : string) (args : list string)
| EvGet (url : string)
| EvNow (t : Z)
| EvSince (t0 : Z) (d : Z)
| EvSelect (d : Z) (fired : bool)
| EvPrintlnPTS (pts : Z)
| EvPrintlnTODO (pkts : list bytes)
| EvPrintlnTODOAudio (pkts : list ADTSPacket)
| EvEncode (nalus : list bytes) (pts : Z)
| EvSetReady (tracks : list Track) (res : pathSourceStaticSetReadyRes)
| EvSetNotReady
| EvOnFrame (trackID : Z) (payload : bytes).

Record hlsSource : Type := { s_ur : string }.

Record hlsSourceInstance : Type := {
  s : hlsSource;
  ur : option URL;
  queue : list string;
  pmtDownloaded : bool;
  videoPID : option Z;
  videoSPS : option bytes;
  videoPPS : option bytes;
  videoTrack : option Track;
  videoEncoder : option Encoder;
  audioPID : option Z;
  stream_ : option stream
}.

Definition newHLSSourceInstance (src : hlsSource) : hlsSourceInstance :=
  {| s := src; ur := None; queue := []; pmtDownloaded := false;
     videoPID := None; videoSPS := None; videoPPS := None;
     videoTrack := None; videoEncoder := None; audioPID := None;
     stream_ := None |}.

Definition set_ur (v : option URL) (i : hlsSourceInstance) :=
  {| s := s i; ur := v; queue := queue i; pmtDownloaded := pmtDownloaded i;
     videoPID := videoPID i; videoSPS := videoSPS i; videoPPS := videoPPS i;
     videoTrack := videoTrack i; videoEncoder := videoEncoder i;
     audioPID := audioPID i; stream_ := stream_ i |}.

Definition set_queue (v : list string) (i : hlsSourceInstance) :=
  {| s := s i; ur := ur i; queue := v; pmtDownloaded := pmtDownloaded i;
     videoPID := videoPID i; videoSPS := videoSPS i; videoPPS := videoPPS i;
     videoTrack := videoTrack i; videoEncoder := videoEncoder i;
     audioPID := audioPID i; stream_ := stream_ i |}.

Definition set_pmtDownloaded (v : bool) (i : hlsSourceInstance) :=
  {| s := s i; ur := ur i; queue := queue i; pmtDownloaded := v;
     videoPID := videoPID i; videoSPS := videoSPS i; videoPPS := videoPPS i;
     videoTrack := videoTrack i; videoEncoder := videoEncoder i;
     audioPID := audioPID i; stream_ := stream_ i |}.

Definition set_videoPID (v : option Z) (i : hlsSourceInstance) :=
  {| s := s i; ur := ur i; queue := queue i; pmtDownloaded := pmtDownloaded i;
     videoPID := v; videoSPS := videoSPS i; videoPPS := videoPPS i;
     videoTrack := videoTrack i; videoEncoder := videoEncoder i;
     audioPID := audioPID i; stream_ := stream_ i |}.

Definition set_videoSPS (v : option bytes) (i : hlsSourceInstance) :=
  {| s := s i; ur := ur i; queue := queue i; pmtDownloaded := pmtDownloaded i;
     videoPID := videoPID i; videoSPS := v; videoPPS := videoPPS i;
     videoTrack := videoTrack i; videoEncoder := videoEncoder i;
     audioPID := audioPID i; stream_ := stream_ i |}.

Definition set_videoPPS (v : option bytes) (i : hlsSourceInstance) :=
  {| s := s i; ur := ur i; queue := queue i; pmtDownloaded := pmtDownloaded i;
     videoPID := videoPID i; videoSPS := videoSPS i; videoPPS := v;
     videoTrack := videoTrack i; videoEncoder := videoEncoder i;
     audioPID := audioPID i; stream_ := stream_ i |}.

Definition set_videoTrack (v : option Track) (i : hlsSourceInstance) :=
  {| s := s i; ur := ur i; queue := queue i; pmtDownloaded := pmtDownloaded i;
     videoPID := videoPID i; videoSPS := videoSPS i; videoPPS := videoPPS i;
     videoTrack := v; videoEncoder := videoEncoder i;
     audioPID := audioPID i; stream_ := stream_ i |}.

Definition set_videoEncoder (v : option Encoder) (i : hlsSourceInstance) :=
  {| s := s i; ur := ur i; queue := queue i; pmtDownloaded := pmtDownloaded i;
     videoPID := videoPID i; videoSPS := videoSPS i; videoPPS := videoPPS i;
     videoTrack := videoTrack i; videoEncoder := v;
     audioPID := audioPID i; stream_ := stream_ i |}.

Definition set_stream (v : option stream) (i : hlsSourceInstance) :=
  {| s := s i; ur := ur i; queue := queue i; pmtDownloaded := pmtDownloaded i;
     videoPID := videoPID i; videoSPS := videoSPS i; videoPPS := videoPPS i;
     videoTrack := videoTrack i; videoEncoder := videoEncoder i;
     audioPID := audioPID i; stream_ := v |}.

(** The world around one attempt: the wall clock (nanoseconds), the
    instant at which the attempt's context is cancelled, the answers the
    HTTP server gives to the requests still to come (when none is left the
    transport fails), and the router's answer to a readiness request. *)
Record World : Type := {
  now : Z;
  cancel_at : option Z;
  http : list (string -> Reply);
  router : list Track -> pathSourceStaticSetReadyRes
}.

Record State : Type := { si : hlsSourceInstance; world : World }.

Definition set_now (t : Z) (w : World) : World :=
  {| now := t; cancel_at := cancel_at w; http := http w; router := router w |}.

Definition set_http (h : list (string -> Reply)) (w : World) : World :=
  {| now := now w; cancel_at := cancel_at w; http := h; router := router w |}.

(* ------------------------------------------------------------------ *)
(** ** The monad *)

Definition M (A : Type) : Type := State -> result A * State * list event.

Definition ret {A} (a : A) : M A := fun st => (Ok a, st, []).

Definition fail {A} (e : error) : M A := fun st => (Fail e, st, []).

Definition panic {A} : M A := fun st => (Panic, st, []).

Definition bind {A B} (m : M A) (k : A -> M B) : M B := fun st =>
  match m st with
  | (Ok a, st1, t1) =>
      match k a st1 with (r, st2, t2) => (r, st2, t1 ++ t2) end
  | (Fail e, st1, t1) => (Fail e, st1, t1)
  | (Panic, st1, t1) => (Panic, st1, t1)
  | (OutOfFuel, st1, t1) => (OutOfFuel, st1, t1)
  end.

(** A deferred call: [d] runs when [body] is left, however it is left. *)
Definition defer {A} (d : M unit) (body : M A) : M A := fun st =>
  match body st with
  | (r, st1, t1) =>
      match d st1 with (_, st2, t2) => (r, st2, t1 ++ t2) end
  end.

End Machine.

Declare Scope go_scope.
Delimit Scope go_scope with go.
Notation "x <- m ;; k" := (bind m (fun x => k))
  (at level 100, m at next level, right associativity) : go_scope.
Notation "m ;; k" := (bind m (fun _ => k))
  (at level 100, right associativity) : go_scope.

Local Open Scope go_scope.

(* ================================================================== *)
(** * The source file *)

Section Source.

Context {L : Libs}.

(* ------------------------------------------------------------------ *)
(** ** Primitive steps *)

Definition get_si : M hlsSourceInstance := fun st => (Ok (si st), st, []).

Definition modify_si (f : hlsSourceInstance -> hlsSourceInstance) : M unit :=
  fun st => (Ok tt, {| si := f (si st); world := world st |}, []).

Definition emit (e : event) : M unit := fun st => (Ok tt, st, [e]).

Definition lift {A} (r : result A) : M A := fun st => (r, st, []).

(** A blocking step that takes [d] nanoseconds. *)
Definition elapse (d : Z) : M unit := fun st =>
  (Ok tt, {| si := si st; world := set_now (now (world st) + d) (world st) |}, []).

(** [time.Now()] *)
Definition time_Now : M Z := fun st =>
  (Ok (now (world st)), st, [EvNow (now (world st))]).

(** [time.Since(t0)] *)
Definition time_Since (t0 : Z) : M Z := fun st =>
  let d := now (world st) - t0 in (Ok d, st, [EvSince t0 d]).

(** [select { case <-si.ctx.Done(): ...; case <-time.After(d): ... }]:
    [true] when the timer fires, [false] when the context is cancelled
    first. *)
Definition select_Done_After (d : Z) : M bool := fun st =>
  let w := world st in
  let t := now w in
  match cancel_at w with
  | Some c =>
      if c <=? t + d
      then (Ok false, {| si := si st; world := set_now (Z.max t c) w |},
            [EvSelect d false])
      else (Ok true, {| si := si st; world := set_now (t + d) w |},
            [EvSelect d true])
  | None => (Ok true, {| si := si st; world := set_now (t + d) w |},
             [EvSelect d true])
  end.

(** [http.NewRequestWithContext(si.ctx, "GET", u, nil)] fails when the
    URL string does not parse. *)
Definition http_NewRequest (u : string) : M unit :=
  match url_Parse u with
  | inr err => fail err
  | inl _ => ret tt
  end.

(** [http.DefaultClient.Do(req)] *)
Definition http_Do (u : string) : M Response := fun st =>
  let w := world st in
  match http w with
  | [] => (Fail (ErrLib "transport closed"), st, [EvGet u])
  | srv :: rest =>
      let rep := srv u in
      let st' := {| si := si st;
                    world := set_http rest (set_now (now w + latency rep) w) |} in
      match answer rep with
      | inl res => (Ok res, st', [EvGet u])
      | inr err => (Fail err, st', [EvGet u])
      end
  end.

(** [s.log]: [s.parent.Log(level, "[hls source] "+format, args...)] *)
Definition log (level : Level) (format : string) (args : list string) : M unit :=
  emit (EvLog level ("[hls source] " ++ format)%string args).

Definition show_URL (u : option URL) : string :=
  match u with
  | Some u => URL_String u
  | None => "<nil>"
  end.

(* ------------------------------------------------------------------ *)
(** ** hlsSourceURLAbsolute *)

Definition hlsSourceURLAbsolute (base : option URL) (relative : string)
  : result URL :=
  match url_Parse relative with
  | inr err => Fail err
  | inl u =>
      if negb (IsAbs u) then
        match base with
        | None => Panic
        | Some base =>
            Ok {| Scheme := Scheme base;
                  Opaque := "";
                  User := User base;
                  Host := Host base;
                  Path := gopath_Join [gopath_Dir (Path base); relative];
                  RawPath := "";
                  ForceQuery := false;
                  RawQuery := "";
                  Fragment := "";
                  RawFragment := "" |}
        end
      else Ok u
  end.

(* ------------------------------------------------------------------ *)
(** ** Playlists and the segment queue *)

Definition playlistDownloadSingle : M Playlist :=
  i <- get_si ;;
  log Debug "downloading playlist %s" [show_URL (ur i)] ;;
  match ur i with
  | None => panic
  | Some u =>
      http_NewRequest (URL_String u) ;;
      res <- http_Do (URL_String u) ;;
      if negb (StatusCode res =? StatusOK) then
        fail (Errorf "bad status code: %d" [ArgInt (StatusCode res)])
      else
        match m3u8_DecodeFrom (Body res) with
        | inr err => fail err
        | inl pl => ret pl
        end
  end.

Definition playlistDownloadMedia : M MediaPlaylistT :=
  pl <- playlistDownloadSingle ;;
  match pl with
  | MediaPlaylist plt => ret plt
  | _ => fail (Errorf "invalid playlist" [])
  end.

(** The loop that takes the variant with the highest bandwidth. *)
Fixpoint chooseVariant (vs : list Variant) (chosenVariant : option Variant)
  : option Variant :=
  match vs with
  | [] => chosenVariant
  | v :: rest =>
      chooseVariant rest
        match chosenVariant with
        | None => Some v
        | Some c =>
            if Bandwidth (Variant_Params v) >? Bandwidth (Variant_Params c)
            then Some v else Some c
        end
  end.

Definition playlistDownloadMaster : M MediaPlaylistT :=
  i <- get_si ;;
  match url_Parse (s_ur (s i)) with
  | inr err => modify_si (set_ur None) ;; fail err
  | inl u =>
      modify_si (set_ur (Some u)) ;;
      pl <- playlistDownloadSingle ;;
      match pl with
      | MediaPlaylist plt => ret plt
      | MasterPlaylist plt =>
          match chooseVariant (Variants plt) None with
          | None => fail (Errorf "no variants found" [])
          | Some chosenVariant =>
              i <- get_si ;;
              u <- lift (hlsSourceURLAbsolute (ur i) (Variant_URI chosenVariant)) ;;
              modify_si (set_ur (Some u)) ;;
              playlistDownloadMedia
          end
      | OtherPlaylist => fail (Errorf "invalid playlist" [])
      end
  end.

Fixpoint containsURI (q : list string) (u : string) : bool :=
  match q with
  | [] => false
  | x :: rest => if String.eqb x u then true else containsURI rest u
  end.

Definition queueContainsURI (i : hlsSourceInstance) (u : string) : bool :=
  containsURI (queue i) u.

Fixpoint queueFill_segments (segs : list (option MediaSegment)) : M unit :=
  match segs with
  | [] => ret tt
  | None :: _ => ret tt
  | Some seg :: rest =>
      i <- get_si ;;
      (if negb (queueContainsURI i (URI seg))
       then modify_si (fun i => set_queue (queue i ++ [URI seg]) i)
       else ret tt) ;;
      queueFill_segments rest
  end.

Definition queueFill : M unit :=
  i <- get_si ;;
  pl <- match ur i with
        | None => playlistDownloadMaster
        | Some _ => playlistDownloadMedia
        end ;;
  queueFill_segments (Segments pl).

(* ------------------------------------------------------------------ *)
(** ** Track initialization *)

(** [return err] for an [err] variable that may be nil. *)
Definition return_err (err : option error) : M unit :=
  match err with
  | Some e => fail e
  | None => ret tt
  end.

(** A [[]byte] field handed to a library: nil reads as the empty slice. *)
Definition slice (b : option bytes) : bytes :=
  match b with Some b => b | None => [] end.

Definition isSome {A} (o : option A) : bool :=
  match o with Some _ => true | None => false end.

Definition initVideoTrack : M unit :=
  i <- get_si ;;
  match gortsplib_NewTrackH264 96 (slice (videoSPS i)) (slice (videoPPS i)) with
  | inr err =>
      modify_si (set_videoTrack None) ;;
      fail err
  | inl track =>
      (* the variable [err] is nil from here on *)
      let err : option error := None in
      modify_si (set_videoTrack (Some track)) ;;
      let tracks := [track] in
      modify_si (set_videoEncoder (Some (rtph264_NewEncoder 96))) ;;
      st <- (fun st => (Ok st, st, [])) ;;
      let res := router (world st) tracks in
      emit (EvSetReady tracks res) ;;
      if isSome (Err res) then return_err err
      else
        log Info "ready" [] ;;
        modify_si (set_stream (Stream res))
  end.

(** The body of [onFrame] is commented out. *)
Definition onFrame (trackID : Z) (payload : bytes) : M unit := ret tt.

(* ------------------------------------------------------------------ *)
(** ** segmentProcess *)

(** The loop over the elementary streams of the PMT. *)
Fixpoint pmtStreams (es : list PMTElementaryStream) : M unit :=
  match es with
  | [] => ret tt
  | e :: rest =>
      (if StreamType e =? StreamTypeH264Video then
         i <- get_si ;;
         if isSome (videoPID i) then
           fail (Errorf "multiple video/audio tracks are not supported" [])
         else modify_si (set_videoPID (Some (ElementaryPID e)))
       else ret tt) ;;
      pmtStreams rest
  end.

(** The "get PMT" loop.  It yields the demuxer as it stands when the loop
    is left by [break], and [None] when [segmentProcess] returns nil from
    inside it. *)
Fixpoint getPMT (items : list (Z * DemuxerData)) (fin : error)
  : M (option Demuxer) :=
  match items with
  | [] => if is_ErrNoMorePackets fin then ret None else fail fin
  | (d, data) :: rest =>
      elapse d ;;
      match PMT data with
      | None => getPMT rest fin
      | Some pmt =>
          modify_si (set_pmtDownloaded true) ;;
          pmtStreams (ElementaryStreams pmt) ;;
          ret (Some {| pending := rest; final := fin |})
      end
  end.

(** The three local variables of the pacing. *)
Record pacing : Type := {
  videoInitialized : bool;
  videoStartPTS : Z;
  videoStartRTC : Z
}.

(** [time.Duration(float64(base)) * time.Second / 90000].  A PTS is a
    33-bit field, on which the conversion through float64 is exact; the
    product wraps in int64 and the division truncates. *)
Definition pts_of_base (base : Z) : Z :=
  Z.quot (wrap64 (base * Second)) 90000.

Definition pesPTS (pes : PESData) : option ClockReference :=
  match OptionalHeader (Header pes) with
  | None => None
  | Some oh => PTS oh
  end.

(** The loop over the NAL units of one payload. *)
Fixpoint naluLoop (nalus : list bytes) (outNALUs : list bytes)
  : M (list bytes) :=
  match nalus with
  | [] => ret outNALUs
  | nalu :: rest =>
      match nalu with
      | [] => panic
      | b0 :: _ =>
          let typ := NALUType b0 in
          if typ =? NALUTypeSPS then
            i <- get_si ;;
            (if negb (isSome (videoSPS i)) then
               modify_si (set_videoSPS (Some nalu)) ;;
               i <- get_si ;;
               if isSome (videoPPS i) then initVideoTrack else ret tt
             else ret tt) ;;
            naluLoop rest outNALUs
          else if typ =? NALUTypePPS then
            i <- get_si ;;
            (if negb (isSome (videoPPS i)) then
               modify_si (set_videoPPS (Some nalu)) ;;
               i <- get_si ;;
               if isSome (videoSPS i) then initVideoTrack else ret tt
             else ret tt) ;;
            naluLoop rest outNALUs
          else if typ =? NALUTypeAccessUnitDelimiter then
            naluLoop rest outNALUs
          else
            i <- get_si ;;
            if negb (isSome (videoEncoder i)) then naluLoop rest outNALUs
            else naluLoop rest (outNALUs ++ [nalu])
      end
  end.

(** The pacing of one payload with timestamp [pts] (lines 324-339):
    the timing reference is taken when the variables do not hold one,
    then the payload waits until its offset from the reference has
    elapsed. *)
Definition pace (pts : Z) (p : pacing) : M pacing :=
  p <- (if negb (videoInitialized p) then
          t <- time_Now ;;
          ret {| videoInitialized := true;
                 videoStartPTS := pts;
                 videoStartRTC := t |}
        else ret p) ;;
  emit (EvPrintlnPTS pts) ;;
  now_ <- time_Since (videoStartRTC p) ;;
  (if wrap64 (pts - videoStartPTS p) >? now_ then
     fired <- select_Done_After
                (wrap64 (wrap64 (pts - videoStartPTS p) - now_)) ;;
     if fired then ret tt else fail (Errorf "terminated" [])
   else ret tt) ;;
  ret p.

(** What is done with the output buffer of one payload (lines 389-401):
    nothing when it is empty; otherwise it is encoded and the packets are
    printed (the loop that calls [onFrame] is commented out). *)
Definition encodeNALUs (outNALUs : list bytes) (pts : Z) : M unit :=
  match outNALUs with
  | [] => ret tt
  | _ :: _ =>
      i <- get_si ;;
      match videoEncoder i with
      | None => panic
      | Some enc =>
          emit (EvEncode outNALUs pts) ;;
          let (r, enc') := rtph264_Encode enc outNALUs pts in
          modify_si (set_videoEncoder (Some enc')) ;;
          match r with
          | inr err =>
              fail (Errorf "ERR while encoding H264: %v" [ArgErr err])
          | inl pkts => emit (EvPrintlnTODO pkts)
          end
      end
  end.

(** One payload of the video PID (lines 313-401). *)
Definition videoPayload (pes : PESData) (p : pacing) : M pacing :=
  match h264_DecodeAnnexB (Data pes) with
  | inr err => fail err
  | inl nalus =>
      match pesPTS pes with
      | None => fail (Errorf "PTS is missing" [])
      | Some ref =>
          let pts := pts_of_base (Base ref) in
          p <- pace pts p ;;
          outNALUs <- naluLoop nalus [] ;;
          encodeNALUs outNALUs pts ;;
          ret p
      end
  end.

(** One payload of the audio PID. *)
Definition audioPayload (pes : PESData) : M unit :=
  match aac_DecodeADTS (Data pes) with
  | inr err => fail err
  | inl pkts => emit (EvPrintlnTODOAudio pkts)
  end.

Definition pidIs (pid : option Z) (p : Z) : bool :=
  match pid with
  | Some v => p =? v
  | None => false
  end.

(** The main loop over the demuxed data of the segment. *)
Fixpoint dataLoop (items : list (Z * DemuxerData)) (fin : error) (p : pacing)
  : M pacing :=
  match items with
  | [] => if is_ErrNoMorePackets fin then ret p else fail fin
  | (d, data) :: rest =>
      elapse d ;;
      match PES data with
      | None => dataLoop rest fin p
      | Some pes =>
          i <- get_si ;;
          if pidIs (videoPID i) (PID data) then
            p <- videoPayload pes p ;;
            dataLoop rest fin p
          else if pidIs (audioPID i) (PID data) then
            audioPayload pes ;;
            dataLoop rest fin p
          else dataLoop rest fin p
      end
  end.

Definition pacing0 : pacing :=
  {| videoInitialized := false; videoStartPTS := 0; videoStartRTC := 0 |}.

(** [segmentProcess], yielding the pacing variables as they stand when it
    returns nil ([pacing0] when the main loop was not reached). *)
Definition segmentProcess_pacing (segmentURI : string) : M pacing :=
  i <- get_si ;;
  u <- lift (hlsSourceURLAbsolute (ur i) segmentURI) ;;
  log Debug "downloading segment %s" [URL_String u] ;;
  http_NewRequest (URL_String u) ;;
  res <- http_Do (URL_String u) ;;
  if negb (StatusCode res =? StatusOK) then
    fail (Errorf "bad status code: %d" [ArgInt (StatusCode res)])
  else
    let dem := astits_NewDemuxer (Body res) in
    i <- get_si ;;
    dem <- (if negb (pmtDownloaded i)
            then getPMT (pending dem) (final dem)
            else ret (Some dem)) ;;
    match dem with
    | None => ret pacing0
    | Some dem => dataLoop (pending dem) (final dem) pacing0
    end.

Definition segmentProcess (segmentURI : string) : M unit :=
  segmentProcess_pacing segmentURI ;; ret tt.

(* ------------------------------------------------------------------ *)
(** ** run *)

(** The [for] loop of [run]; it is left only by [return err]. *)
Fixpoint run_loop (fuel : nat) : M unit :=
  match fuel with
  | O => lift OutOfFuel
  | S fuel =>
      i <- get_si ;;
      (if (Z.of_nat (List.length (queue i)) <=? 1) then queueFill else ret tt) ;;
      i <- get_si ;;
      match queue i with
      | [] =>
          log Debug "segment queue is empty, waiting" [] ;;
          fired <- select_Done_After hlsSourcePauseWhenEmpty ;;
          if fired then run_loop fuel
          else fail (Errorf "terminated" [])
      | el :: rest =>
          modify_si (set_queue rest) ;;
          segmentProcess el ;;
          run_loop fuel
      end
  end.

(** The deferred function of [run]. *)
Definition run_deferred : M unit :=
  i <- get_si ;;
  if isSome (stream_ i) then emit EvSetNotReady else ret tt.

Definition run_fuel (fuel : nat) : M unit :=
  defer run_deferred (run_loop fuel).

(** Every turn of the loop sends a request or returns, so one unit of fuel
    per answer of the server, and one more, is enough. *)
Definition run : M unit := fun st =>
  run_fuel (S (List.length (http (world st)))) st.

End Source.

(* ================================================================== *)
(** * Observations on traces *)

Section Observations.

Context {L : Libs}.

(** A call of the router's per-frame entry point. *)
Definition is_frame (e : event) : bool :=
  match e with EvOnFrame _ _ => true | _ => false end.

Definition is_ready (e : event) : bool :=
  match e with EvSetReady _ _ => true | _ => false end.

Definition is_notready (e : event) : bool :=
  match e with EvSetNotReady => true | _ => false end.

Definition is_encode (e : event) : bool :=
  match e with EvEncode _ _ => true | _ => false end.

Definition is_now (e : event) : bool :=
  match e with EvNow _ => true | _ => false end.

Definition is_select (e : event) : bool :=
  match e with EvSelect _ _ => true | _ => false end.

Definition count (f : event -> bool) (t : list event) : nat :=
  List.length (filter f t).

(** The attempt became live: a readiness call came back without error and
    with a publish handle. *)
Definition live (t : list event) : Prop :=
  exists tracks res h,
    In (EvSetReady tracks res) t /\ Err res = None /\ Stream res = Some h.

(** The handle the attempt holds after the readiness calls of [t]: the
    assignment [si.stream = res.Stream] of each call without error. *)
Definition grant_step (held : option stream) (e : event) : option stream :=
  match e with
  | EvSetReady _ res => if isSome (Err res) then held else Stream res
  | _ => held
  end.

Definition grant (held : option stream) (t : list event) : option stream :=
  fold_left grant_step t held.

Definition granted (t : list event) : option stream := grant None t.

(** Anything but a log line or an HTTP request. *)
Definition is_loud (e : event) : bool :=
  match e with EvLog _ _ _ | EvGet _ => false | _ => true end.

(** Anything but a log line, an HTTP request or a wait. *)
Definition is_media (e : event) : bool :=
  match e with EvLog _ _ _ | EvGet _ | EvSelect _ _ => false | _ => true end.

(** The fields the playlist functions leave alone, and those the
    processing of a segment leaves alone. *)
Definition video_part (i : hlsSourceInstance) :=
  (pmtDownloaded i, videoPID i, videoSPS i, videoPPS i, videoTrack i,
   videoEncoder i, audioPID i, stream_ i).

Definition fetch_part (i : hlsSourceInstance) :=
  (s i, ur i, queue i, audioPID i).

Definition nal_part (i : hlsSourceInstance) :=
  (videoSPS i, videoPPS i, videoTrack i, videoEncoder i, stream_ i).

Definition env_part (w : World) := (cancel_at w, router w).

(** Answers the HTTP server still has. *)
Definition answers (st : State) : nat := List.length (http (world st)).

(** Readiness calls the attempt can still make: one until both SPS and
    PPS are recorded. *)
Definition budget (i : hlsSourceInstance) : nat :=
  if isSome (videoSPS i) && isSome (videoPPS i) then 0 else 1.

(** No PMT entry was bound and none will be. *)
Definition unbound (i : hlsSourceInstance) : Prop :=
  pmtDownloaded i = true /\ videoPID i = None /\ audioPID i = None.

(** Type of the first byte of a NAL unit, when it has one. *)
Definition nal_type (nalu : bytes) : option Z :=
  match nalu with
  | b0 :: _ => Some (NALUType b0)
  | [] => None
  end.

Definition is_h264 (e : PMTElementaryStream) : bool :=
  StreamType e =? StreamTypeH264Video.

Definition no_pmt (item : Z * DemuxerData) : bool :=
  negb (isSome (PMT (snd item))).

(** The PIDs of the H.264-typed entries of a PMT, in order. *)
Definition h264_pids (es : list PMTElementaryStream) : list Z :=
  map ElementaryPID (filter is_h264 es).

Definition pid_part (i : hlsSourceInstance) :=
  (pmtDownloaded i, videoPID i, audioPID i).

Definition bw (v : Variant) : Z := Bandwidth (Variant_Params v).

(** What a function that only fetches playlists does: the video fields
    and the environment stay, the trace holds log lines and requests
    only, and no answer of the server comes back. *)
Definition fetches {A} (st : State) (r : result A) (st' : State)
  (t : list event) : Prop :=
  r <> OutOfFuel /\
  video_part (si st') = video_part (si st) /\
  env_part (world st') = env_part (world st) /\
  count is_loud t = 0%nat /\
  (answers st' <= answers st)%nat.

(** What the processing of a segment's data leaves alone. *)
Definition calm {A} (st : State) (r : result A) (st' : State)
  (t : list event) : Prop :=
  r <> OutOfFuel /\
  count is_frame t = 0%nat /\ count is_notready t = 0%nat /\
  env_part (world st') = env_part (world st) /\
  fetch_part (si st') = fetch_part (si st) /\
  http (world st') = http (world st).

(** The same for [segmentProcess], which sends one request first. *)
Definition processes {A} (st : State) (r : result A) (st' : State)
  (t : list event) : Prop :=
  r <> OutOfFuel /\
  count is_frame t = 0%nat /\ count is_notready t = 0%nat /\
  env_part (world st') = env_part (world st) /\
  fetch_part (si st') = fetch_part (si st) /\
  (answers st' <= answers st)%nat.

(** The handle held follows the readiness calls, and a readiness call is
    paid for by the recording of the second of SPS and PPS. *)
Definition keeps_track (st st' : State) (t : list event) : Prop :=
  stream_ (si st') = grant (stream_ (si st)) t /\
  (count is_ready t + budget (si st') <= budget (si st))%nat.

(** A reading of the wall clock. *)
Definition is_clock (e : event) : bool :=
  match e with EvNow _ | EvSince _ _ => true | _ => false end.

(** The instants returned by [time.Now], the instants elapsed time was
    read from, and the waits asked for, in order. *)
Definition now_instants (t : list event) : list Z :=
  flat_map (fun e => match e with EvNow x => [x] | _ => [] end) t.

Definition since_instants (t : list event) : list Z :=
  flat_map (fun e => match e with EvSince x _ => [x] | _ => [] end) t.

Definition waits (t : list event) : list Z :=
  flat_map (fun e => match e with EvSelect d _ => [d] | _ => [] end) t.

(** An elapsed-time reading, if [e] is one, is taken from [t0]. *)
Definition refers (t0 : Z) (e : event) : Prop :=
  match e with EvSince t0' _ => t0' = t0 | _ => True end.

(** The instance after [initVideoTrack] built [track] and the router
    answered [res], and the calls it made. *)
Definition after_init (track : Track) (res : pathSourceStaticSetReadyRes)
  (i : hlsSourceInstance) : hlsSourceInstance :=
  let i := set_videoEncoder (Some (rtph264_NewEncoder 96))
             (set_videoTrack (Some track) i) in
  if isSome (Err res) then i else set_stream (Stream res) i.

Definition init_trace (track : Track) (res : pathSourceStaticSetReadyRes)
  : list event :=
  EvSetReady [track] res
  :: (if isSome (Err res) then []
      else [EvLog Info "[hls source] ready" []]).

Definition bind_video (pid : Z) (st : State) : State :=
  {| si := set_videoPID (Some pid) (si st); world := world st |}.

Definition with_si (i : hlsSourceInstance) (st : State) : State :=
  {| si := i; world := world st |}.

(** A NAL unit that is neither SPS, PPS nor access-unit delimiter. *)
Definition forwardable (nalu : bytes) : Prop :=
  exists ty, nal_type nalu = Some ty /\
    ty <> NALUTypeSPS /\ ty <> NALUTypePPS /\
    ty <> NALUTypeAccessUnitDelimiter.

(** The attempt as [newHLSSourceInstance] creates it, in a world. *)
Definition attempt (src : hlsSource) (w : World) : State :=
  {| si := newHLSSourceInstance src; world := w |}.

End Observations.

(* ================================================================== *)
(** * Fixtures

    A concrete instance of [Libs] and a few playlists and segments, to
    run the model on.  The parsers are small stand-ins that agree with
    the real packages on the inputs used below; playlist and segment
    bodies are one-byte tags looked up in a table. *)

Module Sample.

Local Open Scope string_scope.
Local Open Scope list_scope.
Local Open Scope Z_scope.

Definition url0 : URL :=
  {| Scheme := ""; Opaque := ""; User := None; Host := ""; Path := "";
     RawPath := ""; ForceQuery := false; RawQuery := ""; Fragment := "";
     RawFragment := "" |}.

Definition with_path (p : string) (u : URL) : URL :=
  {| Scheme := Scheme u; Opaque := Opaque u; User := User u; Host := Host u;
     Path := p; RawPath := RawPath u; ForceQuery := ForceQuery u;
     RawQuery := RawQuery u; Fragment := Fragment u;
     RawFragment := RawFragment u |}.

Fixpoint has_ctl (s : string) : bool :=
  match s with
  | EmptyString => false
  | String c r =>
      (N.ltb (N_of_ascii c) 32) || (N.eqb (N_of_ascii c) 127) || has_ctl r
  end.

(** Host and path of what follows "http://". *)
Fixpoint authority (s : string) : string * string :=
  match s with
  | EmptyString => ("", "")
  | String c r =>
      if Ascii.eqb c slash then ("", s)
      else let (h, p) := authority r in (String c h, p)
  end.

Definition parse (s : string) : URL + error :=
  if has_ctl s then inr (ErrLib "net/url: invalid control character in URL")
  else if String.prefix "http://" s then
    let (h, p) := authority (String.substring 7 (String.length s - 7) s) in
    inl {| Scheme := "http"; Opaque := ""; User := None; Host := h; Path := p;
           RawPath := ""; ForceQuery := false; RawQuery := "";
           Fragment := ""; RawFragment := "" |}
  else inl (with_path s url0).

Definition unparse (u : URL) : string :=
  if IsAbs u then (Scheme u ++ "://" ++ Host u ++ Path u)%string
  else Path u.

Definition zero : byte := x00.
Definition one : byte := x01.

(** Annex-B framing with four-byte start codes 00 00 00 01: the chunks
    between the start codes, the one before the first included. *)
Fixpoint nal_split (b cur : bytes) : list bytes :=
  match b with
  | [] => [cur]
  | x0 :: r =>
      match r with
      | x1 :: x2 :: x3 :: r4 =>
          if Byte.eqb x0 zero && Byte.eqb x1 zero && Byte.eqb x2 zero
             && Byte.eqb x3 one
          then cur :: nal_split r4 []
          else nal_split r (cur ++ [x0])
      | _ => nal_split r (cur ++ [x0])
      end
  end.

Definition is_nil {A} (l : list A) : bool :=
  match l with [] => true | _ => false end.

Definition decodeAnnexB (b : bytes) : list bytes + error :=
  match nal_split b [] with
  | [] :: nalus =>
      if existsb is_nil nalus then inr (ErrLib "empty NALU") else inl nalus
  | _ => inr (ErrLib "input doesn't start with a delimiter")
  end.

Definition startcode : bytes := [zero; zero; zero; one].

Fixpoint annexB (nalus : list bytes) : bytes :=
  match nalus with
  | [] => []
  | n :: r => startcode ++ n ++ annexB r
  end.

(** NAL units: the low five bits of the first byte are the type. *)
Definition aud : bytes := [x09; xf0].
Definition sps : bytes := [x67; x42; x00; x1e].
Definition sps' : bytes := [x67; x42; x00; x1f].
Definition pps : bytes := [x68; xce; x38; x80].
Definition idr : bytes := [x65; x88; x84].
Definition slice1 : bytes := [x41; x9a; x02].

Record track : Type := { payloadType : Z; track_sps : bytes; track_pps : bytes }.

(** One packet per NAL unit; the encoder counts the packets it made. *)
Definition encode (enc : nat) (nalus : list bytes) (pts : Z)
  : (list bytes + error) * nat :=
  (inl nalus, (enc + List.length nalus)%nat).

(** Playlists and segments, by the tag that stands for their body. *)
Definition variant (bw : Z) (uri : string) : Variant :=
  {| Variant_URI := uri; Variant_Params := {| Bandwidth := bw |} |}.

Definition master2 : MasterPlaylistT :=
  {| Variants := [variant 500 "low/index.m3u8"; variant 1500 "high/index.m3u8"] |}.

Definition master0 : MasterPlaylistT := {| Variants := [] |}.

Definition media1 : MediaPlaylistT :=
  {| Segments := [Some {| URI := "seg0.ts" |}; None; None] |}.

Definition media2 : MediaPlaylistT :=
  {| Segments := [Some {| URI := "seg0.ts" |}; Some {| URI := "seg1.ts" |};
                  None] |}.

(** The tag of a one-byte body. *)
Definition tag (b : bytes) : option N :=
  match b with
  | [t] => Some (Byte.to_N t)
  | _ => None
  end.

Definition is_tag (b : bytes) (t : byte) : bool :=
  match tag b with
  | Some n => N.eqb n (Byte.to_N t)
  | None => false
  end.

Definition decodeFrom (b : bytes) : Playlist + error :=
  if is_tag b x01 then inl (MasterPlaylist master2)
  else if is_tag b x02 then inl (MediaPlaylist media1)
  else if is_tag b x03 then inl (MediaPlaylist media2)
  else if is_tag b x04 then inl (MasterPlaylist master0)
  else if is_tag b x05 then inl (MediaPlaylist {| Segments := [None; None] |})
  else inr (ErrLib "m3u8: cannot detect playlist type").

Definition pmt (es : list (Z * Z)) : DemuxerData :=
  {| PID := 4096;
     PMT := Some {| ElementaryStreams :=
                      map (fun e => {| ElementaryPID := fst e;
                                       StreamType := snd e |}) es |};
     PES := None |}.

(** A PES payload on [pid] with presentation timestamp [base] (90 kHz). *)
Definition pes (pid : Z) (base : Z) (nalus : list bytes) : DemuxerData :=
  {| PID := pid; PMT := None;
     PES := Some {| Data := annexB nalus;
                    Header := {| OptionalHeader :=
                                   Some {| PTS := Some {| Base := base |} |} |} |} |}.

Definition ts (items : list (Z * DemuxerData)) : Demuxer :=
  {| pending := items; final := ErrNoMorePackets |}.

Definition pmt_video : DemuxerData := pmt [(256, StreamTypeH264Video)].

(** One segment with a PMT and one payload: AUD, SPS, PPS, IDR. *)
Definition seg_idr : Demuxer :=
  ts [(0, pmt_video); (0, pes 256 900000 [aud; sps; pps; idr])].

(** A later segment: one payload, ten seconds further in the stream. *)
Definition seg_slice : Demuxer :=
  ts [(0, pmt_video); (0, pes 256 1800000 [aud; sps'; slice1])].

(** A segment whose second payload holds an access-unit delimiter only. *)
Definition seg_aud : Demuxer :=
  ts [(0, pmt_video); (0, pes 256 0 [aud; sps; pps; idr]);
      (0, pes 256 18000 [aud])].

(** A PMT without video. *)
Definition seg_novideo : Demuxer :=
  ts [(0, pmt [(257, StreamTypeAACAudio)]);
      (0, pes 256 0 [aud; sps; pps; idr]);
      (0, pes 257 0 [aud; sps; pps; idr])].

Definition newDemuxer (b : bytes) : Demuxer :=
  if is_tag b x10 then seg_idr
  else if is_tag b x11 then seg_slice
  else if is_tag b x12 then seg_aud
  else if is_tag b x13 then seg_novideo
  else {| pending := []; final := ErrLib "astits: no sync byte" |}.

#[export] Instance libs : Libs := {|
  Track := track;
  Encoder := nat;
  stream := nat;
  ADTSPacket := bytes;
  url_Parse := parse;
  URL_String := unparse;
  m3u8_DecodeFrom := decodeFrom;
  astits_NewDemuxer := newDemuxer;
  h264_DecodeAnnexB := decodeAnnexB;
  aac_DecodeADTS := fun _ => inl [];
  gortsplib_NewTrackH264 := fun pt s p =>
    inl {| payloadType := pt; track_sps := s; track_pps := p |};
  Track_ID := fun _ => 0;
  rtph264_NewEncoder := fun _ => O;
  rtph264_Encode := encode
|}.

Definition ok (tag : byte) : Reply :=
  {| latency := 0; answer := inl {| StatusCode := 200; Body := [tag] |} |}.

Definition notFound : Reply :=
  {| latency := 0; answer := inl {| StatusCode := 404; Body := [] |} |}.

(** The origin: a master playlist of two variants; the higher one is a
    media playlist with one segment, which holds SPS, PPS and an IDR
    picture. *)
Definition origin (u : string) : Reply :=
  if String.eqb u "http://h/live/master.m3u8" then ok x01
  else if String.eqb u "http://h/live/high/index.m3u8" then ok x02
  else if String.eqb u "http://h/live/high/seg0.ts" then ok x10
  else notFound.

(** An origin whose master playlist lists no variant. *)
Definition origin_empty (u : string) : Reply :=
  if String.eqb u "http://h/live/master.m3u8" then ok x04 else notFound.

(** An origin with a media playlist of two segments. *)
Definition origin2 (u : string) : Reply :=
  if String.eqb u "http://h/live/index.m3u8" then ok x03
  else if String.eqb u "http://h/live/seg0.ts" then ok x10
  else if String.eqb u "http://h/live/seg1.ts"
       then {| latency := Second; answer := answer (ok x11) |}
  else notFound.

Definition accept (h : nat) (tracks : list track) : pathSourceStaticSetReadyRes :=
  {| Stream := Some h; Err := None |}.

Definition reject (tracks : list track) : pathSourceStaticSetReadyRes :=
  {| Stream := None; Err := Some (ErrLib "path is already published") |}.

Definition world0 (srv : list (string -> Reply))
  (rt : list track -> pathSourceStaticSetReadyRes) : World :=
  {| now := 0; cancel_at := None; http := srv; router := rt |}.

Definition start (root : string) (w : World) : State :=
  {| si := newHLSSourceInstance {| s_ur := root |}; world := w |}.

(** The end-to-end scenario: the origin answers three requests (master
    playlist, media playlist, segment); then the source is closed and the
    transport fails. *)
Definition e2e : State :=
  start "http://h/live/master.m3u8"
    {| now := 0; cancel_at := Some (8 * Second);
       http := [origin; origin; origin]; router := accept 7 |}.

(** The same scenario with a router that declines readiness. *)
Definition e2e_rejected : State :=
  start "http://h/live/master.m3u8"
    {| now := 0; cancel_at := Some (8 * Second);
       http := [origin; origin; origin]; router := reject |}.

(** Two segments in one attempt: playlist, first segment, playlist again,
    second segment (which takes a second to arrive). *)
Definition two_segments : State :=
  start "http://h/live/index.m3u8"
    (world0 [origin2; origin2; origin2; origin2] (accept 7)).

(** An attempt with SPS and PPS recorded and no track yet. *)
Definition with_sps_pps (rt : list track -> pathSourceStaticSetReadyRes)
  : State :=
  {| si := set_videoPPS (Some pps)
             (set_videoSPS (Some sps)
                (newHLSSourceInstance {| s_ur := "http://h/live/master.m3u8" |}));
     world := world0 [] rt |}.

(** A live attempt: PID bound, track initialized, handle held. *)
Definition live_state : State :=
  {| si := {| s := {| s_ur := "http://h/live/master.m3u8" |};
              ur := None; queue := []; pmtDownloaded := true;
              videoPID := Some 256; videoSPS := Some sps;
              videoPPS := Some pps;
              videoTrack := Some {| payloadType := 96; track_sps := sps;
                                    track_pps := pps |};
              videoEncoder := Some 1%nat; audioPID := None;
              stream_ := Some 7%nat |};
     world := world0 [] (accept 7) |}.

(** The timing reference taken at instant 0 on timestamp 0. *)
Definition reference0 : pacing :=
  {| videoInitialized := true; videoStartPTS := 0; videoStartRTC := 0 |}.

(** A payload, 200 ms into the stream, holding an access-unit delimiter
    only. *)
Definition pes_aud : PESData :=
  {| Data := annexB [aud];
     Header := {| OptionalHeader := Some {| PTS := Some {| Base := 18000 |} |} |} |}.

(** An origin whose media playlist is empty: the attempt idles. *)
Definition origin_idle (u : string) : Reply :=
  if String.eqb u "http://h/live/index.m3u8" then ok x05 else notFound.

Definition idle : State :=
  start "http://h/live/index.m3u8"
    {| now := 0; cancel_at := Some (8 * Second);
       http := [origin_idle; origin_idle; origin_idle]; router := accept 7 |}.

(** An attempt whose first PMT held no H.264 entry, with three answers
    of the origin still to come. *)
Definition no_video_state : State :=
  {| si := set_pmtDownloaded true
             (set_ur (Some (with_path "/live/high/index.m3u8"
                              {| Scheme := "http"; Opaque := ""; User := None;
                                 Host := "h"; Path := ""; RawPath := "";
                                 ForceQuery := false; RawQuery := "";
                                 Fragment := ""; RawFragment := "" |}))
                (newHLSSourceInstance {| s_ur := "http://h/live/master.m3u8" |}));
     world := world0 [origin; origin; origin] (accept 7) |}.

(** A base URL without scheme. *)
Definition relative_base : URL := with_path "live/index.m3u8" url0.

End Sample.

(* ================================================================== *)
(** * Facts on traces *)

Section TraceFacts.

Context {L : Libs}.

Lemma count_app f (t1 t2 : list event) : count f (t1 ++ t2) = (count f t1 + count f t2)%nat.
Proof. unfold count. rewrite filter_app, length_app. reflexivity. Qed.

Lemma count_le f g (t : list event) :
  (forall e, f e = true -> g e = true) -> (count f t <= count g t)%nat.
Proof.
  intros Hfg. unfold count. induction t as [|e t IH]; cbn; [lia|].
  destruct (f e) eqn:Ef.
  - rewrite (Hfg e Ef). cbn. lia.
  - destruct (g e); cbn; lia.
Qed.

Lemma count_cons f e (t : list event) :
  count f (e :: t) = ((if f e then 1 else 0) + count f t)%nat.
Proof. unfold count. cbn. destruct (f e); reflexivity. Qed.

Lemma count_nil f : count f (@nil event) = 0%nat.
Proof. reflexivity. Qed.

Lemma grant_app g (t1 t2 : list event) :
  grant g (t1 ++ t2) = grant (grant g t1) t2.
Proof. unfold grant. apply fold_left_app. Qed.

Lemma grant_cons g e (t : list event) :
  grant g (e :: t) = grant (grant_step g e) t.
Proof. reflexivity. Qed.

Lemma grant_nil g : grant g [] = g.
Proof. reflexivity. Qed.

Lemma grant_silent g (t : list event) :
  count is_ready t = 0%nat -> grant g t = g.
Proof.
  revert g. induction t as [|e t IH]; intros g H; [reflexivity|].
  rewrite count_cons in H. rewrite grant_cons, IH by lia.
  destruct e; cbn in *; try reflexivity; lia.
Qed.

Lemma quiet_count f (t : list event) :
  count is_loud t = 0%nat ->
  (forall e, f e = true -> is_loud e = true) ->
  count f t = 0%nat.
Proof. intros H Hf. pose proof (count_le f is_loud t Hf). lia. Qed.

Lemma hlsSourceURLAbsolute_cases base rel :
  (exists u, hlsSourceURLAbsolute base rel = Ok u) \/
  (exists e, hlsSourceURLAbsolute base rel = Fail e) \/
  hlsSourceURLAbsolute base rel = Panic.
Proof.
  unfold hlsSourceURLAbsolute.
  destruct (url_Parse rel); [destruct (negb (IsAbs u)); [destruct base|]|]; eauto.
Qed.

Lemma hlsSourceURLAbsolute_fuel base rel :
  hlsSourceURLAbsolute base rel <> OutOfFuel.
Proof.
  destruct (hlsSourceURLAbsolute_cases base rel) as [[u E]|[[e E]|E]];
    rewrite E; discriminate.
Qed.

End TraceFacts.

(* ================================================================== *)
(** * Symbolic execution of the monad *)

Arguments http_Do : simpl never.
Arguments select_Done_After : simpl never.
Arguments hlsSourceURLAbsolute : simpl never.
Arguments playlistDownloadSingle : simpl never.
Arguments playlistDownloadMedia : simpl never.
Arguments playlistDownloadMaster : simpl never.
Arguments queueFill : simpl never.
Arguments initVideoTrack : simpl never.
Arguments videoPayload : simpl never.
Arguments pace : simpl never.
Arguments encodeNALUs : simpl never.
Arguments segmentProcess_pacing : simpl never.
Arguments segmentProcess : simpl never.
Arguments count : simpl never.
Arguments grant : simpl never.
Arguments NALUType : simpl never.

Ltac inner_match T :=
  match T with
  | context [match ?x with _ => _ end] =>
      lazymatch x with
      | context [match _ with _ => _ end] => fail
      | _ => x
      end
  end.

Ltac run_case :=
  match goal with
  | H : ?T = (_, _, _) |- _ =>
      let x := inner_match T in destruct x eqn:?
  end.

Ltac run_done :=
  match goal with
  | H : (_, _, _) = (_, _, _) |- _ => inversion H; subst; clear H
  end.

Ltac prims := unfold ret, fail, panic, lift, get_si, modify_si, emit, elapse,
  time_Now, time_Since, log, return_err in *.

Ltac quiet :=
  repeat match goal with
  | H : count is_loud ?l = 0%nat |- context [count ?f ?l] =>
      lazymatch f with
      | is_loud => fail
      | _ => rewrite (quiet_count f l H) by (intros []; cbn; congruence)
      end
  | H : count is_ready ?l = 0%nat |- context [grant ?g ?l] =>
      rewrite (grant_silent g l H)
  | H : count is_loud ?l = 0%nat |- context [grant ?g ?l] =>
      rewrite (grant_silent g l)
        by (apply (quiet_count is_ready l H); intros []; cbn; congruence)
  end.

Ltac exec :=
  repeat (prims; unfold bind in *; cbn -[count grant] in *; try run_case);
  try run_done.

Ltac strict :=
  repeat match goal with
         | H : forall a, Ok ?x = Ok a -> _ |- _ => specialize (H _ eq_refl)
         end;
  try lia;
  try match goal with
      | H : _ -> ?r <> OutOfFuel |- ?r <> OutOfFuel => apply H; lia
      end.

Ltac finish :=
  unfold video_part, fetch_part, env_part, answers in *;
  cbn -[count grant] in *; rewrite ?count_app, ?count_cons, ?count_nil in *; cbn -[count grant] in *;
  repeat match goal with
         | H : _ /\ _ |- _ => destruct H
         | H : exists _, _ |- _ => destruct H
         end;
  subst;
  repeat match goal with
         | H : world ?a = _ |- _ => rewrite H in *; clear H
         | H : http (world ?a) = _ |- _ => rewrite H in *; clear H
         | H : si ?a = _ |- _ => rewrite H in *; clear H
         end;
  repeat match goal with
         | H : (_, _) = (_, _) |- _ => injection H as ?
         end;
  repeat match goal with
         | H : ?f (si ?a) = ?f (si ?b) |- _ => rewrite H in *; clear H
         | H : ?f (world ?a) = ?f (world ?b) |- _ => rewrite H in *; clear H
         end;
  rewrite ?count_app, ?count_cons, ?count_nil, ?grant_app, ?grant_cons,
    ?grant_nil in *;
  cbn -[count grant] in *;
  repeat split; intros;
  rewrite ?count_app, ?count_cons, ?count_nil, ?grant_app, ?grant_cons,
    ?grant_nil;
  cbn -[count grant]; quiet;
  try discriminate; try lia; try congruence.

Ltac use L :=
  match goal with
  | H : _ = (_, _, _) |- _ => apply L in H
  end.

Ltac absurd_fuel :=
  try match goal with
      | H : hlsSourceURLAbsolute _ _ = OutOfFuel |- _ =>
          destruct (hlsSourceURLAbsolute_fuel _ _ H)
      end.

Ltac budget_cases :=
  unfold keeps_track, budget in *; cbn -[count grant] in *;
  repeat match goal with
         | H : context [isSome ?x] |- _ => destruct x; cbn -[count grant] in *
         | |- context [isSome ?x] => destruct x; cbn -[count grant] in *
         end.

(* ================================================================== *)
(** * What each function leaves alone *)

Section Frames.

Context {L : Libs}.

Lemma http_Do_fetches u st r st' t :
  http_Do u st = (r, st', t) ->
  fetches st r st' t /\ si st' = si st /\
  (forall a, r = Ok a -> (answers st' < answers st)%nat).
Proof.
  unfold http_Do, fetches. intros H.
  exec; finish; try (rewrite Heql; cbn; lia).
Qed.

Lemma playlistDownloadSingle_fetches st r st' t :
  playlistDownloadSingle st = (r, st', t) ->
  fetches st r st' t /\ si st' = si st /\
  (forall a, r = Ok a -> (answers st' < answers st)%nat).
Proof.
  unfold playlistDownloadSingle, http_NewRequest, bind, fetches. prims. cbn.
  intros H.
  exec; try use http_Do_fetches; unfold fetches in *; finish.
  all: strict.
Qed.

Lemma playlistDownloadMedia_fetches st r st' t :
  playlistDownloadMedia st = (r, st', t) ->
  fetches st r st' t /\ si st' = si st /\
  (forall a, r = Ok a -> (answers st' < answers st)%nat).
Proof.
  unfold playlistDownloadMedia, bind, fetches. prims. intros H.
  exec; use playlistDownloadSingle_fetches;
    unfold fetches in *; finish; strict.
Qed.

Lemma playlistDownloadMaster_fetches st r st' t :
  playlistDownloadMaster st = (r, st', t) ->
  fetches st r st' t /\
  (forall a, r = Ok a -> (answers st' < answers st)%nat).
Proof.
  unfold playlistDownloadMaster, bind, fetches. prims. cbn. intros H.
  exec;
    repeat match goal with
    | H : playlistDownloadSingle _ = _ |- _ => apply playlistDownloadSingle_fetches in H
    | H : playlistDownloadMedia _ = _ |- _ => apply playlistDownloadMedia_fetches in H
    end; absurd_fuel; unfold fetches in *; finish; strict.
Qed.

Lemma queueFill_segments_fetches segs st r st' t :
  queueFill_segments segs st = (r, st', t) ->
  r = Ok tt /\ t = [] /\ world st' = world st /\
  video_part (si st') = video_part (si st).
Proof.
  revert st r st' t. induction segs as [|[seg|] segs IH]; intros st r st' t H.
  - inversion H; subst; auto.
  - cbn in H. unfold bind in H. prims. cbn in H.
    exec;
      match goal with H : queueFill_segments _ _ = _ |- _ => apply IH in H end;
      finish.
  - inversion H; subst; auto.
Qed.

Lemma queueFill_fetches st r st' t :
  queueFill st = (r, st', t) ->
  fetches st r st' t /\
  (forall a, r = Ok a -> (answers st' < answers st)%nat).
Proof.
  unfold queueFill, bind, fetches. prims. cbn. intros H.
  exec;
    repeat match goal with
    | H : playlistDownloadMaster _ = _ |- _ => apply playlistDownloadMaster_fetches in H
    | H : playlistDownloadMedia _ = _ |- _ => apply playlistDownloadMedia_fetches in H
    | H : queueFill_segments _ _ = _ |- _ => apply queueFill_segments_fetches in H
    end; unfold fetches in *; finish; strict.
Qed.

Lemma select_Done_After_calm d st r st' t :
  select_Done_After d st = (r, st', t) ->
  calm st r st' t /\ si st' = si st /\ count is_loud t = 1%nat /\
  count is_ready t = 0%nat /\ count is_encode t = 0%nat /\
  count is_media t = 0%nat /\
  exists fired, r = Ok fired.
Proof.
  unfold select_Done_After, calm. intros H.
  exec; finish; eauto.
Qed.

Lemma initVideoTrack_calm st r st' t :
  initVideoTrack st = (r, st', t) -> calm st r st' t.
Proof.
  unfold initVideoTrack, bind, calm. prims. cbn. intros H.
  exec; finish.
Qed.

Lemma pmtStreams_calm es st r st' t :
  pmtStreams es st = (r, st', t) -> calm st r st' t.
Proof.
  revert st r st' t. induction es as [|e es IH]; intros st r st' t H.
  - inversion H; subst. unfold calm; finish.
  - cbn in H. unfold bind in H. prims. cbn in H.
    exec;
      try match goal with H : pmtStreams _ _ = _ |- _ => apply IH in H end;
      unfold calm in *; finish.
Qed.

Lemma getPMT_calm items fin st r st' t :
  getPMT items fin st = (r, st', t) -> calm st r st' t.
Proof.
  revert st r st' t. induction items as [|[d data] items IH]; intros st r st' t H.
  - cbn in H. prims. exec; unfold calm; finish.
  - cbn in H. unfold bind in H. prims. cbn in H.
    exec;
      repeat match goal with
      | H : getPMT _ _ _ = _ |- _ => apply IH in H
      | H : pmtStreams _ _ = _ |- _ => apply pmtStreams_calm in H
      end; unfold calm in *; finish.
Qed.

Lemma naluLoop_calm nalus out st r st' t :
  naluLoop nalus out st = (r, st', t) -> calm st r st' t.
Proof.
  revert out st r st' t. induction nalus as [|nalu nalus IH]; intros out st r st' t H.
  - inversion H; subst. unfold calm; finish.
  - cbn in H. unfold bind in H. prims. cbn in H.
    exec;
      repeat match goal with
      | H : naluLoop _ _ _ = _ |- _ => apply IH in H
      | H : initVideoTrack _ = _ |- _ => apply initVideoTrack_calm in H
      end; unfold calm in *; finish.
Qed.

Lemma pace_calm pts p st r st' t :
  pace pts p st = (r, st', t) ->
  calm st r st' t /\ si st' = si st /\
  count is_ready t = 0%nat /\ count is_encode t = 0%nat.
Proof.
  unfold pace. intros H. exec;
    repeat match goal with
    | H : select_Done_After _ _ = _ |- _ => apply select_Done_After_calm in H
    end; unfold calm in *; finish.
Qed.

Lemma encodeNALUs_calm out pts st r st' t :
  encodeNALUs out pts st = (r, st', t) ->
  calm st r st' t /\ count is_ready t = 0%nat /\
  (videoSPS (si st'), videoPPS (si st'), stream_ (si st')) =
  (videoSPS (si st), videoPPS (si st), stream_ (si st)).
Proof.
  unfold encodeNALUs. intros H. exec; unfold calm in *; finish.
Qed.

Lemma videoPayload_calm pes p st r st' t :
  videoPayload pes p st = (r, st', t) -> calm st r st' t.
Proof.
  unfold videoPayload. intros H. exec;
      repeat match goal with
      | H : naluLoop _ _ _ = _ |- _ => apply naluLoop_calm in H
      | H : pace _ _ _ = _ |- _ => apply pace_calm in H
      | H : encodeNALUs _ _ _ = _ |- _ => apply encodeNALUs_calm in H
      end; unfold calm in *; finish.
Qed.

Lemma dataLoop_calm items fin p st r st' t :
  dataLoop items fin p st = (r, st', t) -> calm st r st' t.
Proof.
  revert p st r st' t. induction items as [|[d data] items IH]; intros p st r st' t H.
  - cbn in H. prims. exec; unfold calm; finish.
  - cbn in H. unfold bind, audioPayload in H. prims. cbn in H.
    exec;
      repeat match goal with
      | H : dataLoop _ _ _ _ = _ |- _ => apply IH in H
      | H : videoPayload _ _ _ = _ |- _ => apply videoPayload_calm in H
      end; unfold calm in *; finish.
Qed.

Lemma segmentProcess_pacing_processes uri st r st' t :
  segmentProcess_pacing uri st = (r, st', t) ->
  processes st r st' t /\
  (forall a, r = Ok a -> (answers st' < answers st)%nat).
Proof.
  unfold segmentProcess_pacing, http_NewRequest, bind, processes. prims. cbn. intros H.
  destruct (hlsSourceURLAbsolute_cases (ur (si st)) uri) as [[u E]|[[e E]|E]];
    rewrite E in H.
  2,3: run_done; finish.
  exec; absurd_fuel;
      repeat match goal with
      | H : dataLoop _ _ _ _ = _ |- _ => apply dataLoop_calm in H
      | H : getPMT _ _ _ = _ |- _ => apply getPMT_calm in H
      | H : http_Do _ _ = _ |- _ => apply http_Do_fetches in H
      end; unfold calm, fetches in *; finish; strict.
Qed.

Lemma segmentProcess_processes uri st r st' t :
  segmentProcess uri st = (r, st', t) ->
  processes st r st' t /\
  (forall a, r = Ok a -> (answers st' < answers st)%nat).
Proof.
  unfold segmentProcess. intros H. exec;
    use segmentProcess_pacing_processes; unfold processes in *; finish; strict.
Qed.

Lemma run_loop_calm fuel st r st' t :
  run_loop fuel st = (r, st', t) ->
  count is_frame t = 0%nat /\ count is_notready t = 0%nat /\
  env_part (world st') = env_part (world st) /\
  (forall a, r <> Ok a) /\
  ((answers st < fuel)%nat -> r <> OutOfFuel).
Proof.
  revert st r st' t. induction fuel as [|fuel IH]; intros st r st' t H.
  - cbn in H. exec. finish.
  - cbn in H. exec;
      repeat match goal with
      | H : run_loop _ _ = _ |- _ => apply IH in H
      | H : queueFill _ = _ |- _ => apply queueFill_fetches in H
      | H : segmentProcess _ _ = _ |- _ => apply segmentProcess_processes in H
      | H : select_Done_After _ _ = _ |- _ => apply select_Done_After_calm in H
      end; unfold fetches, processes, calm in *; finish; strict.
Qed.

Lemma initVideoTrack_tracks st r st' t :
  initVideoTrack st = (r, st', t) ->
  stream_ (si st') = grant (stream_ (si st)) t /\
  (count is_ready t <= 1)%nat /\
  videoSPS (si st') = videoSPS (si st) /\
  videoPPS (si st') = videoPPS (si st).
Proof.
  unfold initVideoTrack. intros H. exec; finish.
  all: rewrite ?Heqb; reflexivity.
Qed.

Lemma naluLoop_tracks nalus out st r st' t :
  naluLoop nalus out st = (r, st', t) -> keeps_track st st' t.
Proof.
  revert out st r st' t. induction nalus as [|nalu nalus IH]; intros out st r st' t H.
  - inversion H; subst. unfold keeps_track; finish.
  - cbn in H. exec;
      repeat match goal with
      | H : naluLoop _ _ _ = _ |- _ => apply IH in H
      | H : initVideoTrack _ = _ |- _ => apply initVideoTrack_tracks in H
      end; unfold keeps_track in *; finish; budget_cases;
      try discriminate; try lia; try congruence.
Qed.

Lemma pmtStreams_quiet es st r st' t :
  pmtStreams es st = (r, st', t) ->
  t = [] /\ nal_part (si st') = nal_part (si st) /\ world st' = world st.
Proof.
  revert st r st' t. induction es as [|e es IH]; intros st r st' t H.
  - inversion H; subst. auto.
  - cbn in H. exec;
      try match goal with H : pmtStreams _ _ = _ |- _ => apply IH in H end;
      unfold nal_part in *; finish.
Qed.

Lemma getPMT_quiet items fin st r st' t :
  getPMT items fin st = (r, st', t) ->
  t = [] /\ nal_part (si st') = nal_part (si st).
Proof.
  revert st r st' t. induction items as [|[d data] items IH]; intros st r st' t H.
  - cbn in H. exec; auto.
  - cbn in H. exec;
      repeat match goal with
      | H : getPMT _ _ _ = _ |- _ => apply IH in H
      | H : pmtStreams _ _ = _ |- _ => apply pmtStreams_quiet in H
      end; unfold nal_part in *; finish.
Qed.

Lemma videoPayload_tracks pes p st r st' t :
  videoPayload pes p st = (r, st', t) -> keeps_track st st' t.
Proof.
  unfold videoPayload. intros H. exec;
      repeat match goal with
      | H : naluLoop _ _ _ = _ |- _ => apply naluLoop_tracks in H
      | H : pace _ _ _ = _ |- _ => apply pace_calm in H
      | H : encodeNALUs _ _ _ = _ |- _ => apply encodeNALUs_calm in H
      end; unfold keeps_track, calm in *; finish; budget_cases;
      try discriminate; try lia; try congruence.
Qed.

Lemma dataLoop_tracks items fin p st r st' t :
  dataLoop items fin p st = (r, st', t) -> keeps_track st st' t.
Proof.
  revert p st r st' t. induction items as [|[d data] items IH]; intros p st r st' t H.
  - cbn in H. exec; unfold keeps_track; finish.
  - cbn in H. unfold audioPayload in H. exec;
      repeat match goal with
      | H : dataLoop _ _ _ _ = _ |- _ => apply IH in H
      | H : videoPayload _ _ _ = _ |- _ => apply videoPayload_tracks in H
      end; unfold keeps_track in *; finish; budget_cases;
      try discriminate; try lia; try congruence.
Qed.

Lemma segmentProcess_tracks uri st r st' t :
  segmentProcess uri st = (r, st', t) -> keeps_track st st' t.
Proof.
  unfold segmentProcess, segmentProcess_pacing, http_NewRequest. intros H.
  exec; absurd_fuel;
      repeat match goal with
      | H : dataLoop _ _ _ _ = _ |- _ => apply dataLoop_tracks in H
      | H : getPMT _ _ _ = _ |- _ => apply getPMT_quiet in H
      | H : http_Do _ _ = _ |- _ => apply http_Do_fetches in H
      end; unfold keeps_track, fetches, nal_part in *; finish; budget_cases;
      try discriminate; try lia; try congruence.
Qed.

Lemma run_loop_tracks fuel st r st' t :
  run_loop fuel st = (r, st', t) -> keeps_track st st' t.
Proof.
  revert st r st' t. induction fuel as [|fuel IH]; intros st r st' t H.
  - cbn in H. exec. unfold keeps_track. finish.
  - cbn in H. exec;
      repeat match goal with
      | H : run_loop _ _ = _ |- _ => apply IH in H
      | H : queueFill _ = _ |- _ => apply queueFill_fetches in H
      | H : segmentProcess _ _ = _ |- _ => apply segmentProcess_tracks in H
      | H : select_Done_After _ _ = _ |- _ => apply select_Done_After_calm in H
      end; unfold keeps_track, fetches, calm in *; finish; budget_cases;
      try discriminate; try lia; try congruence.
Qed.

Lemma unbound_video_part i i' :
  video_part i' = video_part i -> unbound i -> unbound i'.
Proof.
  unfold video_part, unbound. intros H (H1 & H2 & H3).
  injection H as ? ? ? ? ? ? ? ?. repeat split; congruence.
Qed.

Lemma dataLoop_unbound items fin p st r st' t :
  unbound (si st) ->
  dataLoop items fin p st = (r, st', t) ->
  si st' = si st /\ t = [] /\
  r = (if is_ErrNoMorePackets fin then Ok p else Fail fin).
Proof.
  revert st r st' t. induction items as [|[d data] items IH];
    intros st r st' t U H.
  - cbn in H. exec; auto.
  - pose proof U as (U1 & U2 & U3).
    cbn in H. unfold bind in H. prims. cbn in H.
    destruct (PES data); cbn in H; rewrite ?U2, ?U3 in H; cbn in H; exec;
      match goal with H : dataLoop _ _ _ _ = _ |- _ => apply IH in H; [|exact U] end;
      finish.
Qed.

Lemma segmentProcess_unbound uri st r st' t :
  unbound (si st) ->
  segmentProcess uri st = (r, st', t) ->
  si st' = si st /\ count is_loud t = 0%nat.
Proof.
  intros U H. pose proof U as (U1 & U2 & U3).
  unfold segmentProcess, segmentProcess_pacing, http_NewRequest in H.
  exec; absurd_fuel;
    repeat match goal with
    | H : http_Do _ _ = _ |- _ => apply http_Do_fetches in H
    end; unfold fetches in *;
    repeat match goal with
    | H : _ /\ _ |- _ => destruct H
    | H : si ?a = si _, H' : context [si ?a] |- _ => rewrite H in H'
    end;
    try (rewrite U1 in *; cbn in *; try discriminate);
    repeat match goal with
    | H : getPMT _ _ _ = _ |- _ => clear H
    | H : dataLoop _ _ _ ?s = _, E : si ?s = si st |- _ =>
        apply dataLoop_unbound in H; [|rewrite E; exact U]
    end; finish.
Qed.

Lemma run_loop_unbound fuel st r st' t :
  unbound (si st) ->
  run_loop fuel st = (r, st', t) ->
  video_part (si st') = video_part (si st) /\ count is_media t = 0%nat.
Proof.
  revert st r st' t. induction fuel as [|fuel IH]; intros st r st' t U H.
  - cbn in H. exec. finish.
  - cbn in H. exec;
      repeat match goal with
      | H : queueFill _ = _ |- _ => apply queueFill_fetches in H
      | H : select_Done_After _ _ = _ |- _ => apply select_Done_After_calm in H
      end; unfold fetches, calm in *;
      repeat match goal with
      | H : _ /\ _ |- _ => destruct H
      end.
    all: repeat match goal with
      | H : segmentProcess _ {| si := ?i; world := _ |} = _ |- _ =>
          apply segmentProcess_unbound in H;
          [| cbn; eapply unbound_video_part; [|exact U]; unfold video_part in *;
             cbn; congruence ]
      end.
    all: repeat match goal with
      | H : _ /\ _ |- _ => destruct H
      end.
    all: try match goal with
      | H : run_loop _ ?s = _ |- _ =>
          apply IH in H;
          [| unfold unbound, video_part in *;
             repeat match goal with E : si _ = _ |- _ => rewrite E end;
             cbn; intuition congruence ]
      end.
    all: unfold video_part in *; finish.
Qed.

End Frames.

(* ================================================================== *)
(** * URL resolution and variant selection *)

Section Playlists.

Context {L : Libs}.

Lemma has_slash_app a b : has_slash (a ++ b)%string = has_slash a || has_slash b.
Proof. induction a as [|c a IH]; cbn; [reflexivity|]. rewrite IH. apply orb_assoc. Qed.

Lemma split_dir_file d f :
  has_slash f = false -> split_dir (d ++ "/" ++ f)%string = (d ++ "/")%string.
Proof.
  intros Hf. induction d as [|c d IH].
  - cbn. destruct f; cbn in *; [reflexivity|]. rewrite Hf.
    destruct (Ascii.eqb a slash); cbn in *; [discriminate|reflexivity].
  - change ((String c d ++ "/" ++ f)%string) with (String c (d ++ "/" ++ f)%string).
    cbn [split_dir]. rewrite IH.
    replace (has_slash (String c (d ++ "/" ++ f))) with true; [reflexivity|].
    cbn [has_slash]. rewrite has_slash_app. cbn. rewrite !orb_true_r. reflexivity.
Qed.

(** C9 (as the code has it). Resolution fails exactly when the reference
    does not parse; an absolute reference is returned as parsed; a
    relative one takes scheme, user and host of the base and the path of
    the reference joined to the directory of the base path, and is
    absolute exactly when the base is. *)
Theorem C9_url_absolute_from_base :
  (forall (B : URL) (R : string),
     match url_Parse R with
     | inr err => hlsSourceURLAbsolute (Some B) R = Fail err
     | inl u =>
         if IsAbs u then hlsSourceURLAbsolute (Some B) R = Ok u
         else exists u',
             hlsSourceURLAbsolute (Some B) R = Ok u' /\
             Scheme u' = Scheme B /\ User u' = User B /\ Host u' = Host B /\
             Path u' = gopath_Join [gopath_Dir (Path B); R] /\
             IsAbs u' = IsAbs B
     end) /\
  (forall (B : URL) (R : string),
     (exists err, hlsSourceURLAbsolute (Some B) R = Fail err) <->
     (exists err, url_Parse R = inr err)) /\
  (forall d f : string,
     has_slash f = false ->
     gopath_Dir (d ++ "/" ++ f) = Clean (d ++ "/")).
Proof.
  split; [|split].
  - intros B R. unfold hlsSourceURLAbsolute.
    destruct (url_Parse R) as [u|err]; [|reflexivity].
    destruct (IsAbs u); cbn; [reflexivity|].
    eexists. split; [reflexivity|]. cbn. unfold IsAbs. cbn. tauto.
  - intros B R. unfold hlsSourceURLAbsolute.
    destruct (url_Parse R) as [u|err].
    + destruct (IsAbs u); cbn; split; intros [e H]; discriminate.
    + split; intros _; eauto.
  - intros d f Hf. unfold gopath_Dir. rewrite split_dir_file by exact Hf.
    reflexivity.
Qed.

Lemma chooseVariant_some vs c :
  exists v, chooseVariant vs (Some c) = Some v /\
    ((v = c /\ forall x, In x vs -> bw x <= bw c) \/
     (exists pre post, vs = pre ++ v :: post /\ bw c < bw v /\
        (forall x, In x pre -> bw x < bw v) /\
        (forall x, In x post -> bw x <= bw v))).
Proof.
  revert c. induction vs as [|a vs IH]; intros c.
  - exists c. cbn. split; [reflexivity|]. left. split; [reflexivity|]. intros x [].
  - cbn [chooseVariant]. fold (bw a). fold (bw c).
    destruct (bw a >? bw c) eqn:E.
    + apply Z.gtb_lt in E.
      destruct (IH a) as (v & Hv & [[-> Hle] | (pre & post & -> & Hlt & Hpre & Hpost)]).
      * exists a. split; [exact Hv|]. right. exists [], vs.
        repeat split; auto. intros x [].
      * exists v. split; [exact Hv|]. right. exists (a :: pre), post.
        repeat split; auto; try lia.
        intros x [<-|Hx]; auto.
    + assert (bw a <= bw c) by (rewrite Z.gtb_ltb in E; apply Z.ltb_ge in E; exact E).
      destruct (IH c) as (v & Hv & [[-> Hle] | (pre & post & -> & Hlt & Hpre & Hpost)]).
      * exists c. split; [exact Hv|]. left. split; [reflexivity|].
        intros x [<-|Hx]; auto.
      * exists v. split; [exact Hv|]. right. exists (a :: pre), post.
        repeat split; auto.
        intros x [<-|Hx]; auto. lia.
Qed.


(** C8. The variant chosen from a master playlist has the greatest
    bandwidth, the first one among equals (the second of 500, 1500, 1500,
    200); a master playlist without variants fails with "no variants
    found". *)
Theorem C8_highest_bandwidth_variant :
  (forall vs, chooseVariant vs None = None <-> vs = []) /\
  (forall vs v,
     chooseVariant vs None = Some v ->
     exists pre post,
       vs = pre ++ v :: post /\
       (forall x, In x pre -> bw x < bw v) /\
       (forall x, In x post -> bw x <= bw v)) /\
  (forall a b c d : string,
     let v n u := {| Variant_URI := u; Variant_Params := {| Bandwidth := n |} |} in
     chooseVariant [v 500 a; v 1500 b; v 1500 c; v 200 d] None
     = Some (v 1500 b)) /\
  (forall st u u' srv rest res,
     url_Parse (s_ur (s (si st))) = inl u ->
     url_Parse (URL_String u) = inl u' ->
     http (world st) = srv :: rest ->
     answer (srv (URL_String u)) = inl res ->
     StatusCode res = StatusOK ->
     m3u8_DecodeFrom (Body res) = inl (MasterPlaylist {| Variants := [] |}) ->
     fst (fst (playlistDownloadMaster st)) = Fail (Errorf "no variants found" [])).
Proof.
  split; [|split; [|split]].
  - intros [|a vs]; [cbn; tauto|]. cbn [chooseVariant].
    destruct (chooseVariant_some vs a) as (v & Hv & _). rewrite Hv.
    split; discriminate.
  - intros [|a vs] v; [discriminate|]. cbn [chooseVariant]. intros H.
    destruct (chooseVariant_some vs a) as (v' & Hv & Hcases).
    rewrite Hv in H. injection H as ->.
    destruct Hcases as [[-> Hle] | (pre & post & -> & Hlt & Hpre & Hpost)].
    + exists [], vs. repeat split; auto. intros x [].
    + exists (a :: pre), post. repeat split; auto.
      intros x [<-|Hx]; auto.
  - reflexivity.
  - intros st u u' srv rest res Hp Hp' Hh Ha Hs Hd.
    unfold playlistDownloadMaster, playlistDownloadSingle, http_NewRequest,
      bind, get_si, modify_si, log, emit, ret, fail. cbn.
    rewrite Hp. cbn. rewrite Hp'. cbn.
    unfold http_Do. cbn. rewrite Hh, Ha. cbn. rewrite Hs. cbn. rewrite Hd.
    reflexivity.
Qed.

End Playlists.

(* ================================================================== *)
(** * PID binding *)

Section Pids.

Context {L : Libs}.

Lemma initVideoTrack_pids st r st' t :
  initVideoTrack st = (r, st', t) -> pid_part (si st') = pid_part (si st).
Proof. unfold initVideoTrack, pid_part. intros H. exec; finish. Qed.

Lemma naluLoop_pids nalus out st r st' t :
  naluLoop nalus out st = (r, st', t) -> pid_part (si st') = pid_part (si st).
Proof.
  revert out st r st' t. induction nalus as [|nalu nalus IH]; intros out st r st' t H.
  - inversion H; subst. reflexivity.
  - cbn in H. exec;
      repeat match goal with
      | H : naluLoop _ _ _ = _ |- _ => apply IH in H
      | H : initVideoTrack _ = _ |- _ => apply initVideoTrack_pids in H
      end; unfold pid_part in *; finish.
Qed.

Lemma videoPayload_pids pes p st r st' t :
  videoPayload pes p st = (r, st', t) -> pid_part (si st') = pid_part (si st).
Proof.
  unfold videoPayload, encodeNALUs. intros H. exec;
      repeat match goal with
      | H : naluLoop _ _ _ = _ |- _ => apply naluLoop_pids in H
      | H : pace _ _ _ = _ |- _ => apply pace_calm in H
      end; unfold pid_part, calm in *; finish.
Qed.

Lemma dataLoop_pids items fin p st r st' t :
  dataLoop items fin p st = (r, st', t) -> pid_part (si st') = pid_part (si st).
Proof.
  revert p st r st' t. induction items as [|[d data] items IH]; intros p st r st' t H.
  - cbn in H. exec; reflexivity.
  - cbn in H. unfold audioPayload in H. exec;
      repeat match goal with
      | H : dataLoop _ _ _ _ = _ |- _ => apply IH in H
      | H : videoPayload _ _ _ = _ |- _ => apply videoPayload_pids in H
      end; unfold pid_part in *; finish.
Qed.

Lemma segmentProcess_pids uri st r st' t :
  pmtDownloaded (si st) = true ->
  segmentProcess uri st = (r, st', t) -> pid_part (si st') = pid_part (si st).
Proof.
  intros U H.
  unfold segmentProcess, segmentProcess_pacing, http_NewRequest in H.
  exec; absurd_fuel;
    repeat match goal with
    | H : http_Do _ _ = _ |- _ => apply http_Do_fetches in H
    | H : dataLoop _ _ _ _ = _ |- _ => apply dataLoop_pids in H
    end; unfold fetches in *;
    repeat match goal with
    | H : _ /\ _ |- _ => destruct H
    | H : si ?a = si _, H' : context [si ?a] |- _ => rewrite H in H'
    end;
    try (rewrite U in *; cbn in *; try discriminate);
    unfold pid_part in *; finish.
Qed.

Lemma run_loop_pids fuel st r st' t :
  pmtDownloaded (si st) = true ->
  run_loop fuel st = (r, st', t) -> pid_part (si st') = pid_part (si st).
Proof.
  revert st r st' t. induction fuel as [|fuel IH]; intros st r st' t U H.
  - cbn in H. exec. reflexivity.
  - cbn in H. exec;
      repeat match goal with
      | H : queueFill _ = _ |- _ => apply queueFill_fetches in H
      | H : select_Done_After _ _ = _ |- _ => apply select_Done_After_calm in H
      end; unfold fetches, calm, video_part in *;
      repeat match goal with
      | H : _ /\ _ |- _ => destruct H
      | H : (_, _) = (_, _) |- _ => injection H as ?
      end.
    all: repeat match goal with
      | H : segmentProcess _ _ = _ |- _ =>
          apply segmentProcess_pids in H; [| cbn; congruence ]
      end.
    all: try match goal with
      | H : run_loop _ ?s = _ |- _ =>
          apply IH in H;
          [| unfold pid_part in *;
             repeat match goal with
                    | E : si _ = _ |- _ => rewrite E
                    | E : (_, _) = (_, _) |- _ => injection E as ?
                    end;
             cbn in *; congruence ]
      end.
    all: unfold pid_part in *; finish.
Qed.

(** The loop over the PMT entries, by the H.264 entries it meets. *)
Lemma pmtStreams_bound es st pid :
  videoPID (si st) = Some pid ->
  pmtStreams es st =
  match h264_pids es with
  | [] => (Ok tt, st, [])
  | _ :: _ =>
      (Fail (Errorf "multiple video/audio tracks are not supported" []), st, [])
  end.
Proof.
  intros Hv. induction es as [|e es IH]; [reflexivity|].
  cbn [pmtStreams]. unfold h264_pids in *. cbn [filter]. unfold is_h264 at 1.
  unfold bind. prims.
  destruct (StreamType e =? StreamTypeH264Video); cbn.
  - rewrite Hv. reflexivity.
  - rewrite IH. destruct (map ElementaryPID (filter is_h264 es)); reflexivity.
Qed.

Lemma pmtStreams_fresh es st :
  videoPID (si st) = None ->
  pmtStreams es st =
  match h264_pids es with
  | [] => (Ok tt, st, [])
  | [pid] => (Ok tt, bind_video pid st, [])
  | pid :: _ :: _ =>
      (Fail (Errorf "multiple video/audio tracks are not supported" []),
       bind_video pid st, [])
  end.
Proof.
  revert st. induction es as [|e es IH]; intros st Hv; [reflexivity|].
  cbn [pmtStreams]. unfold h264_pids in *. cbn [filter]. unfold is_h264 at 1.
  unfold bind. prims.
  destruct (StreamType e =? StreamTypeH264Video) eqn:E; cbn.
  - rewrite Hv. cbn.
    erewrite pmtStreams_bound by reflexivity.
    unfold h264_pids.
    destruct (map ElementaryPID (filter is_h264 es)); reflexivity.
  - rewrite IH by exact Hv.
    destruct (map ElementaryPID (filter is_h264 es)) as [|? [|? ?]]; reflexivity.
Qed.

Lemma getPMT_first pre d data pmt post fin st r st' t :
  forallb no_pmt pre = true ->
  PMT data = Some pmt ->
  videoPID (si st) = None ->
  getPMT (pre ++ (d, data) :: post) fin st = (r, st', t) ->
  t = [] /\ pmtDownloaded (si st') = true /\
  audioPID (si st') = audioPID (si st) /\
  match h264_pids (ElementaryStreams pmt) with
  | [] =>
      r = Ok (Some {| pending := post; final := fin |}) /\
      videoPID (si st') = None
  | [pid] =>
      r = Ok (Some {| pending := post; final := fin |}) /\
      videoPID (si st') = Some pid
  | pid :: _ :: _ =>
      r = Fail (Errorf "multiple video/audio tracks are not supported" []) /\
      videoPID (si st') = Some pid
  end.
Proof.
  intros Hpre Hpmt. revert st r st' t.
  induction pre as [|[d0 data0] pre IH]; intros st r st' t Hv H.
  - cbn in H. unfold bind in H. prims. cbn in H. rewrite Hpmt in H. cbn in H.
    rewrite pmtStreams_fresh in H by exact Hv.
    destruct (h264_pids (ElementaryStreams pmt)) as [|pid [|pid' pids]];
      cbn in H; inversion H; subst; cbn; auto.
  - cbn in Hpre. apply andb_true_iff in Hpre as [H0 Hpre].
    unfold no_pmt in H0. cbn in H0.
    change ((((d0, data0) :: pre) ++ (d, data) :: post))
      with ((d0, data0) :: (pre ++ (d, data) :: post)) in H.
    cbn [getPMT] in H. unfold bind in H. prims. cbn in H.
    destruct (PMT data0); [discriminate|].
    destruct (getPMT (pre ++ (d, data) :: post) fin _) as [[r1 s1] t1] eqn:E.
    apply IH in E; [|exact Hpre|exact Hv].
    destruct r1; inversion H; subst; cbn in *; exact E.
Qed.

Lemma run_loop_audio fuel st r st' t :
  run_loop fuel st = (r, st', t) -> audioPID (si st') = audioPID (si st).
Proof.
  revert st r st' t. induction fuel as [|fuel IH]; intros st r st' t H.
  - cbn in H. exec. reflexivity.
  - cbn in H. exec;
      repeat match goal with
      | H : run_loop _ _ = _ |- _ => apply IH in H
      | H : queueFill _ = _ |- _ => apply queueFill_fetches in H
      | H : segmentProcess _ _ = _ |- _ => apply segmentProcess_processes in H
      | H : select_Done_After _ _ = _ |- _ => apply select_Done_After_calm in H
      end; unfold fetches, processes, calm in *; finish.
Qed.

(** C7. The first PMT of an attempt binds the video PID to its first
    H.264 entry, fails the attempt on a second H.264 entry, and never
    binds an AAC entry; once the flag is set the bindings stay for the
    rest of the attempt. *)
Theorem C7_pmt_binding :
  (forall pre d data pmt post fin st r st' t,
     forallb no_pmt pre = true ->
     PMT data = Some pmt ->
     videoPID (si st) = None ->
     getPMT (pre ++ (d, data) :: post) fin st = (r, st', t) ->
     pmtDownloaded (si st') = true /\
     audioPID (si st') = audioPID (si st) /\
     match h264_pids (ElementaryStreams pmt) with
     | [] =>
         r = Ok (Some {| pending := post; final := fin |}) /\
         videoPID (si st') = None
     | [pid] =>
         r = Ok (Some {| pending := post; final := fin |}) /\
         videoPID (si st') = Some pid
     | pid :: _ :: _ =>
         r = Fail (Errorf "multiple video/audio tracks are not supported" []) /\
         videoPID (si st') = Some pid
     end) /\
  (forall v a,
     h264_pids [ {| ElementaryPID := v; StreamType := StreamTypeH264Video |};
                 {| ElementaryPID := a; StreamType := StreamTypeAACAudio |} ]
     = [v]) /\
  (forall v1 v2 rest,
     h264_pids ({| ElementaryPID := v1; StreamType := StreamTypeH264Video |}
                :: {| ElementaryPID := v2; StreamType := StreamTypeH264Video |}
                :: rest)
     = v1 :: v2 :: h264_pids rest) /\
  (forall uri st r st' t,
     pmtDownloaded (si st) = true ->
     segmentProcess uri st = (r, st', t) ->
     pid_part (si st') = pid_part (si st)) /\
  (forall fuel st r st' t,
     pmtDownloaded (si st) = true ->
     run_loop fuel st = (r, st', t) ->
     pid_part (si st') = pid_part (si st)) /\
  (forall fuel st r st' t,
     run_loop fuel st = (r, st', t) ->
     audioPID (si st') = audioPID (si st)).
Proof.
  repeat split.
  1-3: eapply getPMT_first in H2; eauto; tauto.
  - eapply segmentProcess_pids; eauto.
  - eapply run_loop_pids; eauto.
  - eapply run_loop_audio; eauto.
Qed.

Lemma media_counts (t : list event) :
  count is_media t = 0%nat ->
  count is_ready t = 0%nat /\ count is_encode t = 0%nat /\
  count is_now t = 0%nat /\ count is_frame t = 0%nat.
Proof.
  intros H.
  repeat split;
    match goal with
    | |- count ?f _ = _ =>
        pose proof (count_le f is_media t) as Hle;
        assert (forall e, f e = true -> is_media e = true)
          by (intros []; cbn; congruence);
        specialize (Hle ltac:(assumption)); lia
    end.
Qed.

(** C10. When the first PMT holds no H.264 entry the flag is set, no PID
    is bound, every later payload is passed over without error, and the
    attempt never becomes ready. *)
Theorem C10_pmt_without_video :
  (forall pre d data pmt post fin st r st' t,
     forallb no_pmt pre = true ->
     PMT data = Some pmt ->
     h264_pids (ElementaryStreams pmt) = [] ->
     videoPID (si st) = None ->
     audioPID (si st) = None ->
     getPMT (pre ++ (d, data) :: post) fin st = (r, st', t) ->
     r = Ok (Some {| pending := post; final := fin |}) /\
     unbound (si st') /\ t = []) /\
  (forall items fin p st r st' t,
     unbound (si st) ->
     dataLoop items fin p st = (r, st', t) ->
     si st' = si st /\ t = [] /\
     r = (if is_ErrNoMorePackets fin then Ok p else Fail fin)) /\
  (forall st r st' t,
     unbound (si st) ->
     stream_ (si st) = None ->
     run st = (r, st', t) ->
     unbound (si st') /\ stream_ (si st') = None /\
     count is_ready t = 0%nat /\ count is_encode t = 0%nat /\
     count is_notready t = 0%nat).
Proof.
  split; [|split].
  - intros pre d data pmt post fin st r st' t Hpre Hpmt Hh Hv Ha H.
    eapply getPMT_first in H; eauto. destruct H as (Ht & Hd & Hau & Hm).
    rewrite Hh in Hm. destruct Hm as [-> Hv'].
    unfold unbound. repeat split; auto. congruence.
  - intros. eapply dataLoop_unbound; eauto.
  - intros st r st' t U Hs H. unfold run, run_fuel, defer in H.
    destruct (run_loop _ st) as [[r1 s1] t1] eqn:E.
    pose proof E as E2. apply run_loop_calm in E2. destruct E2 as (_ & Hnr & _).
    apply run_loop_unbound in E; [|exact U]. destruct E as [Hvp Hm].
    assert (Hs1 : stream_ (si s1) = None).
    { unfold video_part in Hvp. injection Hvp as ? ? ? ? ? ? ? ?. congruence. }
    unfold run_deferred, bind in H. prims. cbn in H. rewrite Hs1 in H. cbn in H.
    inversion H; subst. rewrite app_nil_r.
    apply media_counts in Hm. destruct Hm as (? & ? & ? & ?).
    repeat split; auto.
    all: eapply unbound_video_part in U; [|exact Hvp]; apply U.
Qed.

End Pids.

(* ================================================================== *)
(** * Readiness and the end of the attempt *)

Section Live.

Context {L : Libs}.

Lemma no_ready_not_live (t : list event) :
  count is_ready t = 0%nat -> ~ live t.
Proof.
  intros H (tracks & res & h & Hin & _).
  induction t as [|e t IH]; [destruct Hin|].
  rewrite count_cons in H. destruct Hin as [->|Hin].
  - cbn in H. lia.
  - apply IH; [lia|exact Hin].
Qed.

Lemma live_cons_other e (t : list event) :
  is_ready e = false -> (live (e :: t) <-> live t).
Proof.
  intros He. unfold live. split.
  - intros (tracks & res & h & [->|Hin] & H1 & H2); [discriminate|eauto 6].
  - intros (tracks & res & h & Hin & H1 & H2). exists tracks, res, h.
    split; [right; exact Hin|auto].
Qed.

(** With at most one readiness call, the attempt holds a handle exactly
    when that call succeeded with one. *)
Lemma live_granted (t : list event) :
  (count is_ready t <= 1)%nat ->
  (live t <-> exists h, grant None t = Some h).
Proof.
  induction t as [|e t IH]; intros Hc.
  - split; [intros (? & ? & ? & [] & _)|intros [h H]; discriminate].
  - rewrite count_cons in Hc. rewrite grant_cons.
    destruct (is_ready e) eqn:He.
    + assert (Ht : count is_ready t = 0%nat) by lia.
      rewrite (@grant_silent L _ t Ht).
      destruct e; try discriminate. cbn.
      split.
      * intros (tracks0 & res0 & h & [E|Hin] & H1 & H2).
        -- injection E as <- <-. rewrite H1. cbn. eauto.
        -- exfalso. apply (@no_ready_not_live t Ht). exists tracks0, res0, h. auto.
      * intros [h H]. destruct (Err res) eqn:E; cbn in H; [discriminate|].
        exists tracks, res, h. split; [left; reflexivity|auto].
    + rewrite (@live_cons_other e t He).
      replace (grant_step None e) with (@None stream)
        by (destruct e; try reflexivity; discriminate).
      apply IH. lia.
Qed.

Lemma live_app_notready (t : list event) :
  live (t ++ [EvSetNotReady]) <-> live t.
Proof.
  unfold live. split.
  - intros (tracks & res & h & Hin & H1 & H2). apply in_app_iff in Hin.
    destruct Hin as [Hin|[E|[]]]; [eauto 6|discriminate].
  - intros (tracks & res & h & Hin & H1 & H2). exists tracks, res, h.
    split; [apply in_app_iff; left; exact Hin|auto].
Qed.

Lemma run_from_idle st r st' t :
  stream_ (si st) = None ->
  run st = (r, st', t) ->
  r <> OutOfFuel /\ (forall a, r <> Ok a) /\
  (count is_ready t <= 1)%nat /\
  (count is_notready t <= 1)%nat /\
  (live t <-> count is_notready t = 1%nat) /\
  (forall pre post, t = pre ++ EvSetNotReady :: post -> post = []) /\
  (live t <-> exists h, stream_ (si st') = Some h).
Proof.
  intros Hs H. unfold run, run_fuel, defer in H.
  destruct (run_loop _ st) as [[r1 s1] t1] eqn:E.
  pose proof E as E2. apply run_loop_calm in E2.
  destruct E2 as (Hf & Hn & _ & Hok & Hfuel).
  apply run_loop_tracks in E. destruct E as [Hg Hb].
  rewrite Hs in Hg.
  assert (Hc : (count is_ready t1 <= 1)%nat).
  { unfold budget in Hb.
    destruct (isSome (videoSPS (si st)) && isSome (videoPPS (si st))); lia. }
  pose proof (@live_granted t1 Hc) as Hlive. rewrite <- Hg in Hlive.
  unfold run_deferred, bind in H. prims. cbn in H.
  destruct (stream_ (si s1)) as [h|] eqn:Es; cbn in H; inversion H; subst.
  - rewrite !count_app, !count_cons, !count_nil. cbn.
    rewrite live_app_notready.
    assert (Hl : live t1) by (apply Hlive; eauto).
    split; [apply Hfuel; unfold answers; lia|].
    split; [exact Hok|].
    split; [lia|]. split; [lia|].
    split; [split; [intros _; lia|intros _; exact Hl]|].
    split; [|split; [intros _; eauto|intros _; exact Hl]].
    intros pre post E.
    destruct post as [|e post]; [reflexivity|exfalso].
    assert (Hin : In EvSetNotReady t1).
    { assert (Hlen : List.length (t1 ++ [EvSetNotReady])
                     = List.length (pre ++ EvSetNotReady :: e :: post))
        by (rewrite E; reflexivity).
      rewrite !length_app in Hlen. cbn in Hlen.
      assert (Hpre : (List.length pre < List.length t1)%nat) by lia.
      assert (Hn1 : nth_error (t1 ++ [EvSetNotReady]) (List.length pre)
                    = Some EvSetNotReady).
      { rewrite E. rewrite nth_error_app2 by lia.
        rewrite Nat.sub_diag. reflexivity. }
      rewrite nth_error_app1 in Hn1 by exact Hpre.
      eapply nth_error_In; eauto. }
    clear - Hin Hn.
    induction t1 as [|x t1 IH]; [destruct Hin|].
    rewrite count_cons in Hn. destruct Hin as [->|Hin]; [cbn in Hn; lia|].
    apply IH; [lia|exact Hin].
  - rewrite app_nil_r.
    assert (Hnl : ~ live t1).
    { intros Hl. apply Hlive in Hl. destruct Hl as [h Hl]. discriminate. }
    split; [apply Hfuel; unfold answers; lia|].
    split; [exact Hok|].
    split; [lia|]. split; [lia|].
    split; [split; [intros Hl; contradiction|intros Hl; lia]|].
    split; [|split; [intros Hl; contradiction|intros [h Hl]; congruence]].
    intros pre post E. exfalso. clear - E Hn. subst t1.
    rewrite count_app, count_cons in Hn. cbn in Hn. lia.
Qed.

(** C5. When the run loop of an attempt is left, the router is told that
    the source is no longer ready exactly once if the attempt became live
    and not at all otherwise, whatever ended the attempt. *)
Theorem C5_not_ready_iff_live :
  forall (src : hlsSource) (w : World),
    match run (attempt src w) with
    | (r, st', t) =>
        r <> OutOfFuel /\ (forall a, r <> Ok a) /\
        (count is_ready t <= 1)%nat /\
        (count is_notready t <= 1)%nat /\
        (live t <-> count is_notready t = 1%nat) /\
        (forall pre post, t = pre ++ EvSetNotReady :: post -> post = []) /\
        (live t <-> exists h, stream_ (si st') = Some h)
    end.
Proof.
  intros src w. destruct (run (attempt src w)) as [[r st'] t] eqn:E.
  eapply run_from_idle; [|exact E]. reflexivity.
Qed.

End Live.

(* ================================================================== *)
(** * NAL unit filtering *)

Section Nal.

Context {L : Libs}.

Lemma nal_type_inv nalu ty :
  nal_type nalu = Some ty -> exists b0 rest, nalu = b0 :: rest /\ NALUType b0 = ty.
Proof.
  destruct nalu as [|b0 rest]; [discriminate|]. cbn. intros H. injection H as H.
  eauto.
Qed.

(** [initVideoTrack] once the track is built: whatever the router
    answers, nil is returned. *)
Lemma initVideoTrack_built st track :
  gortsplib_NewTrackH264 96 (slice (videoSPS (si st))) (slice (videoPPS (si st)))
  = inl track ->
  initVideoTrack st =
  (Ok tt,
   with_si (after_init track (router (world st) [track]) (si st)) st,
   init_trace track (router (world st) [track])).
Proof.
  intros H. unfold initVideoTrack, bind. prims. cbn. rewrite H. cbn.
  unfold after_init, init_trace, with_si.
  destruct (isSome (Err (router (world st) [track]))); reflexivity.
Qed.

Lemma naluLoop_aud nalu rest out st :
  nal_type nalu = Some NALUTypeAccessUnitDelimiter ->
  naluLoop (nalu :: rest) out st = naluLoop rest out st.
Proof.
  intros T. apply nal_type_inv in T. destruct T as (b0 & r & -> & T).
  cbn [naluLoop]. rewrite T. reflexivity.
Qed.

Lemma naluLoop_sps_first nalu rest out st :
  nal_type nalu = Some NALUTypeSPS ->
  videoSPS (si st) = None -> videoPPS (si st) = None ->
  naluLoop (nalu :: rest) out st
  = naluLoop rest out (with_si (set_videoSPS (Some nalu) (si st)) st).
Proof.
  intros T Hs Hp. apply nal_type_inv in T. destruct T as (b0 & r & -> & T).
  cbn [naluLoop]. rewrite T. unfold bind. prims. cbn. rewrite Hs. cbn.
  rewrite Hp. cbn. unfold with_si.
  destruct (naluLoop rest out _) as [[? ?] ?]. reflexivity.
Qed.

Lemma naluLoop_sps_again nalu rest out st :
  nal_type nalu = Some NALUTypeSPS ->
  isSome (videoSPS (si st)) = true ->
  naluLoop (nalu :: rest) out st = naluLoop rest out st.
Proof.
  intros T Hs. apply nal_type_inv in T. destruct T as (b0 & r & -> & T).
  cbn [naluLoop]. rewrite T. unfold bind. prims. cbn. rewrite Hs. cbn.
  destruct (naluLoop rest out _) as [[? ?] ?]. reflexivity.
Qed.

Lemma naluLoop_pps_again nalu rest out st :
  nal_type nalu = Some NALUTypePPS ->
  isSome (videoPPS (si st)) = true ->
  naluLoop (nalu :: rest) out st = naluLoop rest out st.
Proof.
  intros T Hs. apply nal_type_inv in T. destruct T as (b0 & r & -> & T).
  cbn [naluLoop]. rewrite T. unfold bind. prims. cbn. rewrite Hs. cbn.
  destruct (naluLoop rest out _) as [[? ?] ?]. reflexivity.
Qed.

Lemma naluLoop_pps_completes nalu rest out st sps track :
  nal_type nalu = Some NALUTypePPS ->
  videoSPS (si st) = Some sps -> videoPPS (si st) = None ->
  gortsplib_NewTrackH264 96 sps nalu = inl track ->
  let res := router (world st) [track] in
  let st1 := with_si (after_init track res (set_videoPPS (Some nalu) (si st))) st in
  naluLoop (nalu :: rest) out st =
  match naluLoop rest out st1 with
  | (r, st2, t2) => (r, st2, init_trace track res ++ t2)
  end.
Proof.
  intros T Hs Hp Ht. apply nal_type_inv in T. destruct T as (b0 & r & -> & T).
  cbn [naluLoop]. rewrite T. unfold bind. prims. cbn. rewrite Hp. cbn.
  rewrite Hs. cbn.
  rewrite initVideoTrack_built with (track := track)
    by (cbn; rewrite Hs; exact Ht).
  cbn. unfold with_si. cbn.
  destruct (naluLoop rest out _) as [[? ?] ?]. rewrite ?app_nil_r. reflexivity.
Qed.

Lemma naluLoop_other nalu rest out st :
  forwardable nalu ->
  naluLoop (nalu :: rest) out st
  = naluLoop rest (if isSome (videoEncoder (si st)) then out ++ [nalu] else out) st.
Proof.
  intros (ty & T & H1 & H2 & H3).
  apply nal_type_inv in T. destruct T as (b0 & r & -> & T).
  cbn [naluLoop]. rewrite T. unfold bind. prims.
  apply Z.eqb_neq in H1, H2, H3. rewrite H1, H2, H3. cbn.
  destruct (videoEncoder (si st)); cbn;
    destruct (naluLoop rest _ st) as [[? ?] ?]; reflexivity.
Qed.

Lemma forwardable_idr nalu :
  nal_type nalu = Some NALUTypeIDR -> forwardable nalu.
Proof. intros H. exists NALUTypeIDR. repeat split; auto; discriminate. Qed.

Lemma forwardable_slice nalu :
  nal_type nalu = Some NALUTypeNonIDR -> forwardable nalu.
Proof. intros H. exists NALUTypeNonIDR. repeat split; auto; discriminate. Qed.

(** C6. SPS, PPS and access-unit delimiters are never forwarded; the
    track is initialized once, by the PPS that completes the pair; other
    units are dropped before that and forwarded after it. *)
Theorem C6_nal_filtering :
  (forall st aud1 sps1 pps1 idr1 aud2 sps2 slice1 track,
     videoSPS (si st) = None ->
     videoPPS (si st) = None ->
     videoEncoder (si st) = None ->
     nal_type aud1 = Some NALUTypeAccessUnitDelimiter ->
     nal_type sps1 = Some NALUTypeSPS ->
     nal_type pps1 = Some NALUTypePPS ->
     nal_type idr1 = Some NALUTypeIDR ->
     nal_type aud2 = Some NALUTypeAccessUnitDelimiter ->
     nal_type sps2 = Some NALUTypeSPS ->
     nal_type slice1 = Some NALUTypeNonIDR ->
     gortsplib_NewTrackH264 96 sps1 pps1 = inl track ->
     let res := router (world st) [track] in
     let st0 := with_si (set_videoSPS (Some sps1) (si st)) st in
     let st1 :=
       with_si (after_init track res
                  (set_videoPPS (Some pps1) (set_videoSPS (Some sps1) (si st))))
         st in
     let t1 := init_trace track res in
     naluLoop [aud1; sps1] [] st = (Ok [], st0, []) /\
     videoEncoder (si st0) = None /\
     naluLoop [aud1; sps1; pps1] [] st = (Ok [], st1, t1) /\
     count is_ready t1 = 1%nat /\
     videoSPS (si st1) = Some sps1 /\
     videoPPS (si st1) = Some pps1 /\
     videoTrack (si st1) = Some track /\
     videoEncoder (si st1) = Some (rtph264_NewEncoder 96) /\
     naluLoop [aud1; sps1; pps1; idr1] [] st = (Ok [idr1], st1, t1) /\
     naluLoop [aud2; sps2; slice1] [] st1 = (Ok [slice1], st1, []) /\
     naluLoop [aud1; sps1; pps1; idr1; aud2; sps2; slice1] [] st
     = (Ok [idr1; slice1], st1, t1)) /\
  (forall st nalu out,
     forwardable nalu ->
     naluLoop [nalu] out st
     = (Ok (if isSome (videoEncoder (si st)) then out ++ [nalu] else out),
        st, [])).
Proof.
  split.
  - intros st aud1 sps1 pps1 idr1 aud2 sps2 slice1 track
      Hs Hp He Ta1 Ts1 Tp1 Ti Ta2 Ts2 Tsl Htrack res st0 st1 t1.
    assert (E1 : videoEncoder (si st1) = Some (rtph264_NewEncoder 96)).
    { subst st1. unfold after_init. cbn. destruct (isSome (Err res)); reflexivity. }
    assert (E2 : videoSPS (si st1) = Some sps1).
    { subst st1. unfold after_init. cbn. destruct (isSome (Err res)); reflexivity. }
    assert (E3 : videoPPS (si st1) = Some pps1).
    { subst st1. unfold after_init. cbn. destruct (isSome (Err res)); reflexivity. }
    assert (E4 : videoTrack (si st1) = Some track).
    { subst st1. unfold after_init. cbn. destruct (isSome (Err res)); reflexivity. }
    assert (P : forall rest out,
               naluLoop (aud1 :: sps1 :: pps1 :: rest) out st =
               match naluLoop rest out st1 with
               | (r, st2, t2) => (r, st2, t1 ++ t2)
               end).
    { intros rest out. rewrite naluLoop_aud by exact Ta1.
      rewrite naluLoop_sps_first by assumption.
      rewrite naluLoop_pps_completes with (sps := sps1) (track := track)
        by first [assumption | reflexivity].
      reflexivity. }
    assert (Q : forall out,
               naluLoop [aud2; sps2; slice1] out st1
               = (Ok (out ++ [slice1]), st1, [])).
    { intros out. rewrite naluLoop_aud by exact Ta2.
      rewrite naluLoop_sps_again
        by first [exact Ts2 | exact (f_equal isSome E2)].
      rewrite naluLoop_other by (apply forwardable_slice; exact Tsl).
      rewrite E1. reflexivity. }
    split.
    { rewrite naluLoop_aud by exact Ta1.
      rewrite naluLoop_sps_first by assumption. reflexivity. }
    split; [exact He|].
    split.
    { rewrite P. cbn. rewrite app_nil_r. reflexivity. }
    split.
    { subst t1. unfold init_trace. rewrite count_cons. cbn.
      destruct (isSome (Err res)); reflexivity. }
    split; [exact E2|]. split; [exact E3|]. split; [exact E4|].
    split; [exact E1|].
    split.
    { rewrite P. rewrite naluLoop_other by (apply forwardable_idr; exact Ti).
      rewrite E1. cbn. rewrite app_nil_r. reflexivity. }
    split; [apply Q|].
    rewrite P. rewrite naluLoop_other by (apply forwardable_idr; exact Ti).
    rewrite E1. cbn [isSome app]. rewrite Q. rewrite app_nil_r. reflexivity.
  - intros st nalu out F. rewrite naluLoop_other by exact F. reflexivity.
Qed.

End Nal.

(* ================================================================== *)
(** * Encoding and forwarding *)

Section Forward.

Context {L : Libs}.

Lemma initVideoTrack_encoder st r st' t :
  initVideoTrack st = (r, st', t) ->
  (isSome (videoEncoder (si st)) = true ->
   isSome (videoEncoder (si st')) = true) /\
  count is_encode t = 0%nat /\ count is_select t = 0%nat /\
  count is_clock t = 0%nat.
Proof. unfold initVideoTrack. intros H. exec; finish. Qed.

(** The loop over the NAL units encodes nothing, waits for nothing and
    reads no clock; what it puts in the buffer finds an encoder. *)
Lemma naluLoop_encoder nalus out st r st' t :
  naluLoop nalus out st = (r, st', t) ->
  (isSome (videoEncoder (si st)) = true ->
   isSome (videoEncoder (si st')) = true) /\
  (forall out', r = Ok out' ->
     out' = out \/ isSome (videoEncoder (si st')) = true) /\
  count is_encode t = 0%nat /\ count is_select t = 0%nat /\
  count is_clock t = 0%nat.
Proof.
  revert out st r st' t. induction nalus as [|nalu nalus IH]; intros out st r st' t H.
  - inversion H; subst. repeat split; auto. intros out' E. injection E as <-. auto.
  - cbn in H. exec;
      repeat match goal with
      | H : naluLoop _ _ _ = _ |- _ => apply IH in H
      | H : initVideoTrack _ = _ |- _ => apply initVideoTrack_encoder in H
      end; finish;
      repeat match goal with
      | H : isSome ?x = true -> _, E : ?x = Some _ |- _ =>
          rewrite E in H; specialize (H eq_refl)
      | H : forall o, Ok ?a = Ok o -> _ |- _ => specialize (H _ eq_refl)
      | H : false = true -> _ |- _ => clear H
      | H : true = true -> _ |- _ => specialize (H eq_refl)
      end; auto; try tauto;
      try match goal with
          | E : Ok _ = Ok _ |- _ => injection E as <-
          end; auto; try tauto;
      try (right;
           match goal with
           | H : isSome ?x = true -> ?G |- ?G =>
               apply H; destruct (isSome x); [reflexivity|discriminate]
           end).
Qed.

Lemma pace_encoder pts p st r st' t :
  pace pts p st = (r, st', t) ->
  si st' = si st /\ count is_encode t = 0%nat /\
  count is_frame t = 0%nat /\ count is_ready t = 0%nat.
Proof.
  unfold pace. intros H. exec;
    repeat match goal with
    | H : select_Done_After _ _ = _ |- _ => apply select_Done_After_calm in H
    end; unfold calm in *; finish.
Qed.

(** What [encodeNALUs] does with a buffer that is not empty. *)
Lemma encodeNALUs_some out pts st enc :
  out <> [] ->
  videoEncoder (si st) = Some enc ->
  encodeNALUs out pts st =
  match rtph264_Encode enc out pts with
  | (inl pkts, enc') =>
      (Ok tt, with_si (set_videoEncoder (Some enc') (si st)) st,
       [EvEncode out pts; EvPrintlnTODO pkts])
  | (inr err, enc') =>
      (Fail (Errorf "ERR while encoding H264: %v" [ArgErr err]),
       with_si (set_videoEncoder (Some enc') (si st)) st,
       [EvEncode out pts])
  end.
Proof.
  intros Ho He. unfold encodeNALUs. destruct out as [|n out]; [congruence|].
  unfold bind. prims. cbn. rewrite He.
  destruct (rtph264_Encode enc (n :: out) pts) as [[pkts|err] enc']; reflexivity.
Qed.

Lemma run_no_frame st r st' t :
  run st = (r, st', t) -> count is_frame t = 0%nat.
Proof.
  unfold run, run_fuel, defer. intros H.
  destruct (run_loop _ st) as [[r1 s1] t1] eqn:E.
  apply run_loop_calm in E. destruct E as (Hf & _).
  unfold run_deferred, bind in H. prims. cbn in H.
  destruct (isSome (stream_ (si s1))); cbn in H; inversion H; subst;
    rewrite count_app, ?count_cons, ?count_nil; cbn; lia.
Qed.

(** C1 (as the code has it). A payload whose output buffer is not empty
    is encoded, once, with its timestamp, and the packets are printed;
    no packet is handed to the router: [onFrame] does nothing and no run
    of an attempt calls the router's per-frame entry point. *)
Theorem C1_encoded_not_forwarded :
  (forall nalus st out st' t,
     naluLoop nalus [] st = (Ok out, st', t) ->
     out <> [] ->
     exists enc, videoEncoder (si st') = Some enc) /\
  (forall out pts st enc,
     out <> [] ->
     videoEncoder (si st) = Some enc ->
     encodeNALUs out pts st =
     match rtph264_Encode enc out pts with
     | (inl pkts, enc') =>
         (Ok tt, with_si (set_videoEncoder (Some enc') (si st)) st,
          [EvEncode out pts; EvPrintlnTODO pkts])
     | (inr err, enc') =>
         (Fail (Errorf "ERR while encoding H264: %v" [ArgErr err]),
          with_si (set_videoEncoder (Some enc') (si st)) st,
          [EvEncode out pts])
     end) /\
  (forall trackID payload st, onFrame trackID payload st = (Ok tt, st, [])) /\
  (forall pes p st r st' t,
     videoPayload pes p st = (r, st', t) -> count is_frame t = 0%nat) /\
  (forall st r st' t, run st = (r, st', t) -> count is_frame t = 0%nat).
Proof.
  split; [|split; [|split; [|split]]].
  - intros nalus st out st' t H Ho. apply naluLoop_encoder in H.
    destruct H as (_ & H & _). destruct (H _ eq_refl) as [->|E]; [congruence|].
    destruct (videoEncoder (si st')); [eauto|discriminate].
  - intros. apply encodeNALUs_some; assumption.
  - reflexivity.
  - intros pes p st r st' t H. apply videoPayload_calm in H. apply H.
  - intros. eapply run_no_frame; eauto.
Qed.

End Forward.

(* ================================================================== *)
(** * Pacing *)

Section Pacing.

Context {L : Libs}.

Lemma no_clock_refers t0 (t : list event) :
  count is_clock t = 0%nat ->
  count is_now t = 0%nat /\ Forall (refers t0) t /\
  (forall t1 d, ~ In (EvSince t1 d) t).
Proof.
  induction t as [|e t IH]; intros H.
  - repeat split; auto. 
  - rewrite count_cons in H.
    destruct (is_clock e) eqn:E; [lia|].
    destruct IH as (I1 & I2 & I3); [lia|].
    rewrite count_cons.
    split; [|split].
    + destruct e; cbn in *; try discriminate; lia.
    + constructor; [|exact I2]. destruct e; cbn in *; try discriminate; exact I.
    + intros t1 d [->|Hin]; [discriminate|]. exact (I3 _ _ Hin).
Qed.

(** The pacing of a payload when the reference is held. *)
Lemma pace_held pts p st :
  videoInitialized p = true ->
  let elapsed := now (world st) - videoStartRTC p in
  let target := wrap64 (pts - videoStartPTS p) in
  exists r st' tail,
    pace pts p st =
    (r, st', EvPrintlnPTS pts :: EvSince (videoStartRTC p) elapsed :: tail) /\
    si st' = si st /\
    (forall p', r = Ok p' -> p' = p) /\
    ((target >? elapsed) = false /\ tail = [] /\ r = Ok p /\ st' = st \/
     (target >? elapsed) = true /\
     exists fired, tail = [EvSelect (wrap64 (target - elapsed)) fired] /\
       r = (if fired then Ok p else Fail (Errorf "terminated" []))).
Proof.
  intros Hi elapsed target. unfold pace, bind. prims. cbn. rewrite Hi. cbn.
  fold elapsed. fold target.
  destruct (target >? elapsed) eqn:E; cbn.
  - destruct (select_Done_After (wrap64 (target - elapsed)) st)
      as [[r1 s1] t1] eqn:Es.
    unfold select_Done_After in Es.
    destruct (cancel_at (world st)) as [c|];
      [destruct (c <=? now (world st) + wrap64 (target - elapsed))|];
      inversion Es; subst; cbn;
      do 3 eexists; (split; [reflexivity|]); cbn;
      (split; [reflexivity|]);
      (split; [intros p' Hp; congruence|]);
      right; (split; [reflexivity|]); eexists; split; reflexivity.
  - do 3 eexists. split; [reflexivity|]. split; [reflexivity|].
    split; [intros p' Hp; congruence|].
    left. destruct st; auto.
Qed.

(** The pacing of the payload that takes the reference: no wait. *)
Lemma pace_first pts p st :
  videoInitialized p = false ->
  pace pts p st =
  (Ok {| videoInitialized := true; videoStartPTS := pts;
         videoStartRTC := now (world st) |},
   st,
   [EvNow (now (world st)); EvPrintlnPTS pts; EvSince (now (world st)) 0]).
Proof.
  intros Hi. unfold pace, bind. prims. cbn. rewrite Hi. cbn.
  rewrite !Z.sub_diag. cbn. reflexivity.
Qed.

Lemma pace_clock pts p st r st' t :
  pace pts p st = (r, st', t) ->
  (forall p', r = Ok p' ->
     videoInitialized p' = true /\
     (videoInitialized p = true -> p' = p) /\
     (videoInitialized p = false -> In (EvNow (videoStartRTC p')) t)) /\
  (videoInitialized p = true ->
     count is_now t = 0%nat /\ Forall (refers (videoStartRTC p)) t) /\
  (videoInitialized p = false ->
     count is_now t = 1%nat /\
     forall t0 d, In (EvSince t0 d) t -> In (EvNow t0) t).
Proof.
  intros H. destruct (videoInitialized p) eqn:Hi.
  - destruct (@pace_held pts p st Hi) as (r1 & s1 & tail & E & _ & Hp & Hc).
    rewrite E in H. inversion H; subst.
    split; [|split; [|discriminate]].
    + intros p' Hr. specialize (Hp _ Hr). subst p'.
      repeat split; auto; discriminate.
    + intros _. rewrite !count_cons.
      destruct Hc as [(_ & -> & _) | (_ & fired & -> & _)]; cbn;
        repeat constructor.
  - rewrite (@pace_first pts p st Hi) in H. inversion H; subst.
    split; [|split; [discriminate|]].
    + intros p' Hr. injection Hr as <-. cbn.
      repeat split; auto; try discriminate.
    + intros _. split; [reflexivity|].
      intros t0 d [E|[E|[E|[]]]]; try discriminate.
      injection E as <- _. left. reflexivity.
Qed.

Lemma encodeNALUs_clock out pts st r st' t :
  encodeNALUs out pts st = (r, st', t) ->
  count is_clock t = 0%nat /\ count is_select t = 0%nat.
Proof. unfold encodeNALUs. intros H. exec; finish. Qed.

Lemma videoPayload_clock pes p st r st' t :
  videoPayload pes p st = (r, st', t) ->
  (forall p', r = Ok p' ->
     videoInitialized p' = true /\
     (videoInitialized p = true -> p' = p) /\
     (videoInitialized p = false -> In (EvNow (videoStartRTC p')) t)) /\
  (videoInitialized p = true ->
     count is_now t = 0%nat /\ Forall (refers (videoStartRTC p)) t) /\
  (videoInitialized p = false ->
     (count is_now t <= 1)%nat /\
     forall t0 d, In (EvSince t0 d) t -> In (EvNow t0) t).
Proof.
  unfold videoPayload. intros H.
  destruct (h264_DecodeAnnexB (Data pes)) as [nalus|err];
    [|inversion H; subst; repeat split; intros; try discriminate; auto;
      try constructor; try contradiction; cbn; lia].
  destruct (pesPTS pes) as [ref|];
    [|inversion H; subst; repeat split; intros; try discriminate; auto;
      try constructor; try contradiction; cbn; lia].
  unfold bind in H.
  destruct (pace _ p st) as [[r1 s1] t1] eqn:E1.
  apply pace_clock in E1. destruct E1 as (P1 & P2 & P3).
  destruct r1 as [p1| | |];
    try (inversion H; subst; split; [discriminate|]; split;
         [exact P2|intros Hi; destruct (P3 Hi) as [Q1 Q2]; split; [lia|exact Q2]]).
  destruct (naluLoop nalus [] s1) as [[r2 s2] t2] eqn:E2.
  apply naluLoop_encoder in E2. destruct E2 as (_ & _ & _ & _ & C2).
  assert (K : forall t3, count is_clock t3 = 0%nat ->
     (forall p', Ok p1 = Ok p' ->
        videoInitialized p' = true /\
        (videoInitialized p = true -> p' = p) /\
        (videoInitialized p = false -> In (EvNow (videoStartRTC p')) (t1 ++ t3))) /\
     (videoInitialized p = true ->
        count is_now (t1 ++ t3) = 0%nat /\
        Forall (refers (videoStartRTC p)) (t1 ++ t3)) /\
     (videoInitialized p = false ->
        (count is_now (t1 ++ t3) <= 1)%nat /\
        forall t0 d, In (EvSince t0 d) (t1 ++ t3) -> In (EvNow t0) (t1 ++ t3))).
  { intros t3 C3.
    split; [|split].
    - intros p' Hr. destruct (P1 _ Hr) as (Q1 & Q2 & Q3).
      split; [exact Q1|]. split; [exact Q2|].
      intros Hi. apply in_app_iff. left. auto.
    - intros Hi. destruct (P2 Hi) as [Q1 Q2].
      destruct (no_clock_refers (videoStartRTC p) t3 C3) as (N1 & N2 & _).
      rewrite count_app. split; [lia|]. apply Forall_app. split; assumption.
    - intros Hi. destruct (P3 Hi) as [Q1 Q2].
      destruct (no_clock_refers 0 t3 C3) as (N1 & _ & N3).
      rewrite count_app. split; [lia|].
      intros t0 d Hin. apply in_app_iff in Hin. apply in_app_iff.
      destruct Hin as [Hin|Hin];
        [left; eapply Q2; eauto|exfalso; exact (N3 _ _ Hin)]. }
  destruct r2 as [out| | |].
  2-4: inversion H; subst; destruct (K t2 C2) as (K1 & K2 & K3);
       split; [discriminate|]; split; assumption.
  destruct (encodeNALUs out _ s2) as [[r3 s3] t3] eqn:E3.
  apply encodeNALUs_clock in E3. destruct E3 as [C3 _].
  assert (C23 : count is_clock (t2 ++ t3) = 0%nat)
    by (rewrite count_app; lia).
  destruct (K (t2 ++ t3) C23) as (K1 & K2 & K3).
  destruct r3; cbn in H; inversion H; subst; rewrite ?app_nil_r.
  - split; [exact K1|]. split; assumption.
  - split; [discriminate|]. split; assumption.
  - split; [discriminate|]. split; assumption.
  - split; [discriminate|]. split; assumption.
Qed.

Lemma refers_since t0 (t : list event) t1 d :
  Forall (refers t0) t -> In (EvSince t1 d) t -> t1 = t0.
Proof.
  intros F Hin. rewrite Forall_forall in F. exact (F _ Hin).
Qed.

(** Within one segment the reference is taken at most once, and once
    held it is neither replaced nor re-read from another instant. *)
Lemma dataLoop_clock items fin p st r st' t :
  dataLoop items fin p st = (r, st', t) ->
  (videoInitialized p = true ->
     count is_now t = 0%nat /\ Forall (refers (videoStartRTC p)) t /\
     (forall p', r = Ok p' -> p' = p)) /\
  (videoInitialized p = false ->
     (count is_now t <= 1)%nat /\
     forall t0 d, In (EvSince t0 d) t -> In (EvNow t0) t).
Proof.
  revert p st r st' t.
  induction items as [|[d data] items IH]; intros p st r st' t H.
  - cbn in H. prims.
    destruct (is_ErrNoMorePackets fin); inversion H; subst;
      (split; intros Hi;
       [split; [reflexivity|split; [apply Forall_nil|intros p' E; congruence]]
       |split; [unfold count; cbn; lia|intros ? ? []]]).
  - cbn [dataLoop] in H. unfold bind in H. prims. cbn in H.
    destruct (PES data) as [pes|]; cbn in H.
    2:{ destruct (dataLoop items fin p _) as [[r1 s1] t1] eqn:E.
        apply IH in E. inversion H; subst. exact E. }
    destruct (pidIs (videoPID (si st)) (PID data)).
    + destruct (videoPayload pes p _) as [[r1 s1] t1] eqn:E1.
      apply videoPayload_clock in E1. destruct E1 as (P1 & P2 & P3).
      destruct r1 as [p1| | |];
        try (inversion H; subst; split; intros Hi;
             [destruct (P2 Hi) as [Q1 Q2]; split; [exact Q1|split; [exact Q2|]];
              intros p' E; discriminate
             |exact (P3 Hi)]).
      destruct (dataLoop items fin p1 s1) as [[r2 s2] t2] eqn:E2.
      apply IH in E2. destruct E2 as [I1 _].
      destruct (P1 _ eq_refl) as (Q1 & Q2 & Q3).
      destruct (I1 Q1) as (J1 & J2 & J3).
      inversion H; subst. rewrite count_app.
      split; intros Hi.
      * destruct (P2 Hi) as [R1 R2]. rewrite (Q2 Hi) in *.
        split; [lia|]. split; [apply Forall_app; split; assumption|exact J3].
      * destruct (P3 Hi) as [R1 R2]. split; [lia|].
        intros t0 d0 Hin. apply in_app_iff in Hin. apply in_app_iff. left.
        destruct Hin as [Hin|Hin]; [eapply R2; eauto|].
        rewrite (refers_since _ _ J2 Hin). exact (Q3 Hi).
    + destruct (pidIs (audioPID (si st)) (PID data)).
      * unfold audioPayload in H. prims. cbn in H.
        destruct (aac_DecodeADTS (Data pes)) as [pkts|err]; cbn in H.
        2:{ inversion H; subst.
            split; intros Hi;
              [split; [reflexivity|split; [constructor|intros p' E; discriminate]]
              |split; [unfold count; cbn; lia|intros ? ? []]]. }
        destruct (dataLoop items fin p _) as [[r2 s2] t2] eqn:E2.
        apply IH in E2. destruct E2 as [I1 I2].
        inversion H; subst. cbn [app]. rewrite !count_cons. cbn.
        split; intros Hi.
        -- destruct (I1 Hi) as (J1 & J2 & J3).
           split; [exact J1|]. split; [constructor; [exact I|exact J2]|exact J3].
        -- destruct (I2 Hi) as (J1 & J2). split; [exact J1|].
           intros t0 d0 [E|Hin]; [discriminate|]. right. eapply J2; eauto.
      * destruct (dataLoop items fin p _) as [[r1 s1] t1] eqn:E.
        apply IH in E. inversion H; subst. exact E.
Qed.

Lemma quiet_no_clock (t : list event) :
  count is_loud t = 0%nat -> count is_clock t = 0%nat.
Proof.
  intros H. apply quiet_count; [exact H|]. intros []; cbn; congruence.
Qed.

Lemma clock_free (t : list event) :
  count is_clock t = 0%nat ->
  (count is_now t <= 1)%nat /\
  (forall t0 d, In (EvSince t0 d) t -> In (EvNow t0) t).
Proof.
  intros C. destruct (no_clock_refers 0 t C) as (N1 & _ & N3).
  split; [lia|]. intros t0 d Hin. exfalso. exact (N3 _ _ Hin).
Qed.

Lemma clock_prefix (t1 t2 : list event) :
  count is_clock t1 = 0%nat ->
  ((count is_now t2 <= 1)%nat /\
   (forall t0 d, In (EvSince t0 d) t2 -> In (EvNow t0) t2)) ->
  (count is_now (t1 ++ t2) <= 1)%nat /\
  (forall t0 d, In (EvSince t0 d) (t1 ++ t2) -> In (EvNow t0) (t1 ++ t2)).
Proof.
  intros C [A B].
  destruct (no_clock_refers 0 t1 C) as (N1 & _ & N3).
  rewrite count_app. split; [lia|].
  intros t0 d Hin. apply in_app_iff in Hin. apply in_app_iff.
  destruct Hin as [Hin|Hin]; [exfalso; exact (N3 _ _ Hin)|right; eauto].
Qed.

Lemma segmentProcess_pacing_clock uri st r st' t :
  segmentProcess_pacing uri st = (r, st', t) ->
  (count is_now t <= 1)%nat /\
  (forall t0 d, In (EvSince t0 d) t -> In (EvNow t0) t).
Proof.
  intros H.
  unfold segmentProcess_pacing, http_NewRequest in H.
  exec; absurd_fuel;
    repeat match goal with
    | H : http_Do _ _ = _ |- _ => apply http_Do_fetches in H
    | H : getPMT _ _ _ = _ |- _ => apply getPMT_quiet in H
    | H : dataLoop _ _ pacing0 _ = _ |- _ =>
        apply dataLoop_clock in H; destruct H as [_ H]; specialize (H eq_refl)
    end; unfold fetches in *;
    repeat match goal with
    | H : _ /\ (_ /\ _) |- _ => destruct H
    | H : (_ <> _) /\ _ |- _ => destruct H
    | H : (_ = _) /\ _ |- _ => destruct H
    end; subst;
    repeat match goal with
    | H : count is_loud _ = 0%nat |- _ => apply quiet_no_clock in H
    end;
    rewrite ?app_nil_r; cbn [app];
    try (apply clock_free; first [assumption | reflexivity]);
    try (apply (clock_prefix [_]); [reflexivity|]);
    try (apply clock_free; assumption);
    try (apply clock_prefix; [assumption|]);
    cbn [app]; rewrite ?app_nil_r;
    try (apply clock_free; first [assumption | reflexivity]);
    try assumption.
Qed.

(** C3 (as the code has it). The timing reference belongs to the
    processing of one segment: it is taken by the first payload of the
    segment that reaches the pacing, at most once per segment, and every
    later pacing decision of that segment is relative to it. *)
Theorem C3_reference_per_segment :
  (forall pts p st,
     videoInitialized p = false ->
     pace pts p st =
     (Ok {| videoInitialized := true; videoStartPTS := pts;
            videoStartRTC := now (world st) |},
      st,
      [EvNow (now (world st)); EvPrintlnPTS pts; EvSince (now (world st)) 0])) /\
  (forall pts p st,
     videoInitialized p = true ->
     let elapsed := now (world st) - videoStartRTC p in
     let target := wrap64 (pts - videoStartPTS p) in
     exists r st' tail,
       pace pts p st =
       (r, st', EvPrintlnPTS pts :: EvSince (videoStartRTC p) elapsed :: tail) /\
       si st' = si st /\
       (forall p', r = Ok p' -> p' = p) /\
       ((target >? elapsed) = false /\ tail = [] /\ r = Ok p /\ st' = st \/
        (target >? elapsed) = true /\
        exists fired, tail = [EvSelect (wrap64 (target - elapsed)) fired] /\
          r = (if fired then Ok p else Fail (Errorf "terminated" [])))) /\
  (forall items fin p st r st' t,
     videoInitialized p = true ->
     dataLoop items fin p st = (r, st', t) ->
     count is_now t = 0%nat /\ Forall (refers (videoStartRTC p)) t /\
     (forall p', r = Ok p' -> p' = p)) /\
  (forall uri st r st' t,
     segmentProcess_pacing uri st = (r, st', t) ->
     (count is_now t <= 1)%nat /\
     (forall t0 d, In (EvSince t0 d) t -> In (EvNow t0) t)).
Proof.
  split; [|split; [|split]].
  - intros. apply pace_first. assumption.
  - intros. apply pace_held. assumption.
  - intros items fin p st r st' t Hi H. apply dataLoop_clock in H.
    destruct H as [H _]. exact (H Hi).
  - intros. eapply segmentProcess_pacing_clock; eauto.
Qed.

Lemma pace_select pts p st r st' t :
  videoInitialized p = true ->
  pace pts p st = (r, st', t) ->
  count is_select t =
  (if wrap64 (pts - videoStartPTS p) >? now (world st) - videoStartRTC p
   then 1 else 0)%nat.
Proof.
  intros Hi H.
  destruct (@pace_held pts p st Hi) as (r1 & s1 & tail & E & _ & _ & Hc).
  rewrite E in H. inversion H; subst. rewrite !count_cons. cbn.
  destruct Hc as [(-> & -> & _) | (-> & fired & -> & _)]; reflexivity.
Qed.

(** C4 (as the code has it). A payload whose output buffer is empty is
    not encoded; the pacing wait comes before the classification and
    depends on the timestamp and the clock alone. *)
Theorem C4_empty_buffer_not_encoded :
  (forall pts st, encodeNALUs [] pts st = (Ok tt, st, [])) /\
  (forall pes p st nalus ref p1 s1 t1 s2 t2,
     h264_DecodeAnnexB (Data pes) = inl nalus ->
     pesPTS pes = Some ref ->
     pace (pts_of_base (Base ref)) p st = (Ok p1, s1, t1) ->
     naluLoop nalus [] s1 = (Ok [], s2, t2) ->
     videoPayload pes p st = (Ok p1, s2, t1 ++ t2) /\
     count is_encode (t1 ++ t2) = 0%nat /\
     count is_select (t1 ++ t2) = count is_select t1) /\
  (forall pts p st r st' t,
     videoInitialized p = true ->
     pace pts p st = (r, st', t) ->
     count is_select t =
     (if wrap64 (pts - videoStartPTS p) >? now (world st) - videoStartRTC p
      then 1 else 0)%nat).
Proof.
  split; [|split].
  - reflexivity.
  - intros pes p st nalus ref p1 s1 t1 s2 t2 Hd Hp E1 E2.
    unfold videoPayload. rewrite Hd, Hp. unfold bind. rewrite E1, E2.
    unfold encodeNALUs. prims. cbn. rewrite ?app_nil_r.
    apply pace_encoder in E1. apply naluLoop_encoder in E2.
    destruct E1 as (_ & A1 & _). destruct E2 as (_ & _ & B1 & B2 & _).
    rewrite !count_app. repeat split; lia.
  - intros. eapply pace_select; eauto.
Qed.

End Pacing.

(* ================================================================== *)
(** * Scenarios *)

(** C1, as stated, fails in the end-to-end scenario: the IDR picture is
    encoded once and no frame call reaches the router. *)
Lemma C1_end_to_end_counterexample :
  match run Sample.e2e with
  | (_, _, t) =>
      count is_ready t = 1%nat /\ count is_encode t = 1%nat /\
      count is_frame t <> 1%nat
  end.
Proof. vm_compute. repeat split; discriminate. Qed.

(** C2. The router declines readiness, [initVideoTrack] returns nil: the
    attempt goes on, holds no handle, and encodes the picture. *)
Theorem C2_rejected_readiness_returns_nil :
  (match initVideoTrack (Sample.with_sps_pps Sample.reject) with
   | (r, st', t) =>
       r = Ok tt /\ isSome (stream_ (si st')) = false /\
       isSome (videoEncoder (si st')) = true /\
       count is_ready t = 1%nat
   end) /\
  (match run Sample.e2e_rejected with
   | (r, st', t) =>
       r = Fail (ErrLib "transport closed") /\
       isSome (stream_ (si st')) = false /\
       count is_ready t = 1%nat /\ count is_encode t = 1%nat /\
       count is_notready t = 0%nat
   end).
Proof. vm_compute. repeat split. Qed.

(** C3, as stated, fails on an attempt that processes two segments: the
    reference is taken twice, and the second segment reads the elapsed
    time from the second instant. *)
Lemma C3_two_segments_counterexample :
  match run Sample.two_segments with
  | (_, _, t) =>
      count is_now t = 2%nat /\
      now_instants t = [0; Second] /\
      since_instants t = [0; Second]
  end.
Proof. vm_compute. repeat split. Qed.

(** C4, as stated, fails on a payload that holds an access-unit delimiter
    only, 200 ms after the reference: its buffer is empty, nothing is
    encoded, and the payload waits 200 ms. *)
Lemma C4_delimiter_only_counterexample :
  fst (fst (naluLoop [Sample.aud] [] Sample.live_state)) = Ok [] /\
  match videoPayload Sample.pes_aud Sample.reference0 Sample.live_state with
  | (r, _, t) =>
      r = Ok Sample.reference0 /\ count is_encode t = 0%nat /\
      count is_select t = 1%nat /\ waits t = [200000000]
  end.
Proof. vm_compute. repeat split. Qed.

(** An attempt cancelled during the idle wait ends with "terminated"; it
    never became ready and the router is not called. *)
Example idle_attempt_cancelled :
  match run Sample.idle with
  | (r, _, t) =>
      r = Fail (Errorf "terminated" []) /\
      count is_ready t = 0%nat /\ count is_notready t = 0%nat /\
      waits t = [hlsSourcePauseWhenEmpty; hlsSourcePauseWhenEmpty]
  end.
Proof. vm_compute. repeat split. Qed.

(** C9, as stated, fails for a base URL without scheme: the result has
    none either. *)
Lemma C9_relative_base_counterexample :
  match @hlsSourceURLAbsolute Sample.libs (Some Sample.relative_base) "seg0.ts" with
  | Ok u => IsAbs u = false /\ Path u = "live/seg0.ts"
  | _ => False
  end.
Proof. vm_compute. split; reflexivity. Qed.

(** C1 at the live fixture: the IDR picture is encoded and printed. *)
Lemma C1_witness :
  [Sample.idr] <> [] /\
  videoEncoder (si Sample.live_state) = Some 1%nat /\
  encodeNALUs [Sample.idr] 0 Sample.live_state =
  match @rtph264_Encode Sample.libs 1%nat [Sample.idr] 0 with
  | (inl pkts, enc') =>
      (Ok tt,
       with_si (set_videoEncoder (Some enc') (si Sample.live_state))
         Sample.live_state,
       [EvEncode [Sample.idr] 0; EvPrintlnTODO pkts])
  | (inr err, enc') =>
      (Fail (Errorf "ERR while encoding H264: %v" [ArgErr err]),
       with_si (set_videoEncoder (Some enc') (si Sample.live_state))
         Sample.live_state,
       [EvEncode [Sample.idr] 0])
  end.
Proof.
  split; [discriminate|]. split; [reflexivity|].
  apply (proj1 (proj2 (@C1_encoded_not_forwarded Sample.libs))); [discriminate|reflexivity].
Defined.

(** C3 at the live fixture: the first payload takes the reference. *)
Lemma C3_witness :
  videoInitialized pacing0 = false /\
  pace 0 pacing0 Sample.live_state =
  (Ok {| videoInitialized := true; videoStartPTS := 0;
         videoStartRTC := now (world Sample.live_state) |},
   Sample.live_state,
   [EvNow (now (world Sample.live_state)); EvPrintlnPTS 0;
    EvSince (now (world Sample.live_state)) 0]).
Proof.
  split; [reflexivity|].
  apply (proj1 (@C3_reference_per_segment Sample.libs)). reflexivity.
Defined.

(** C4 at the live fixture: a payload 200 ms ahead waits once. *)
Lemma C4_witness :
  videoInitialized Sample.reference0 = true /\
  count is_select
    (snd (pace 200000000 Sample.reference0 Sample.live_state)) = 1%nat.
Proof.
  split; [reflexivity|].
  destruct (pace 200000000 Sample.reference0 Sample.live_state)
    as [[r st'] t] eqn:E.
  cbn [snd].
  rewrite (proj2 (proj2 (@C4_empty_buffer_not_encoded Sample.libs))
             200000000 Sample.reference0 Sample.live_state r st' t eq_refl E).
  reflexivity.
Defined.

(** C5 in the end-to-end scenario. *)
Lemma C5_witness :
  match run Sample.e2e with
  | (r, st', t) =>
      r <> OutOfFuel /\ (forall a, r <> Ok a) /\
      (count is_ready t <= 1)%nat /\
      (count is_notready t <= 1)%nat /\
      (live t <-> count is_notready t = 1%nat) /\
      (forall pre post, t = pre ++ EvSetNotReady :: post -> post = []) /\
      (live t <-> exists h, stream_ (si st') = Some h)
  end.
Proof.
  exact (@C5_not_ready_iff_live Sample.libs
           {| s_ur := "http://h/live/master.m3u8" |} (world Sample.e2e)).
Defined.

(** C6 on the units of the fixtures. *)
Lemma C6_witness :
  fst (fst (naluLoop
              [Sample.aud; Sample.sps; Sample.pps; Sample.idr;
               Sample.aud; Sample.sps'; Sample.slice1] []
              (Sample.start "http://h/live/master.m3u8" (world Sample.e2e))))
  = Ok [Sample.idr; Sample.slice1].
Proof.
  destruct (proj1 (@C6_nal_filtering Sample.libs)
              (Sample.start "http://h/live/master.m3u8" (world Sample.e2e))
              Sample.aud Sample.sps Sample.pps Sample.idr
              Sample.aud Sample.sps' Sample.slice1
              {| Sample.payloadType := 96; Sample.track_sps := Sample.sps;
                 Sample.track_pps := Sample.pps |}
              eq_refl eq_refl eq_refl eq_refl eq_refl eq_refl eq_refl
              eq_refl eq_refl eq_refl eq_refl)
    as (_ & _ & _ & _ & _ & _ & _ & _ & _ & _ & H).
  rewrite H. reflexivity.
Defined.

(** C7 on the PMT of the fixtures. *)
Lemma C7_witness :
  videoPID
    (si (snd (fst (getPMT (pending Sample.seg_idr) ErrNoMorePackets
                     (Sample.start "http://h/live/master.m3u8"
                        (world Sample.e2e))))))
  = Some 256.
Proof.
  destruct (getPMT (pending Sample.seg_idr) ErrNoMorePackets
              (Sample.start "http://h/live/master.m3u8" (world Sample.e2e)))
    as [[r st'] t] eqn:E.
  destruct (proj1 (@C7_pmt_binding Sample.libs) [] 0 Sample.pmt_video
              {| ElementaryStreams :=
                   [ {| ElementaryPID := 256;
                        StreamType := StreamTypeH264Video |} ] |}
              (tl (pending Sample.seg_idr)) ErrNoMorePackets
              (Sample.start "http://h/live/master.m3u8" (world Sample.e2e))
              r st' t eq_refl eq_refl eq_refl E) as (_ & _ & _ & H).
  exact H.
Defined.

(** C8 on a master playlist without variants. *)
Lemma C8_witness :
  fst (fst (playlistDownloadMaster
              (Sample.start "http://h/live/master.m3u8"
                 (Sample.world0 [Sample.origin_empty] (Sample.accept 7)))))
  = Fail (Errorf "no variants found" []).
Proof.
  eapply (proj2 (proj2 (proj2 (@C8_highest_bandwidth_variant Sample.libs)))).
  - vm_compute. reflexivity.
  - vm_compute. reflexivity.
  - reflexivity.
  - vm_compute. reflexivity.
  - reflexivity.
  - vm_compute. reflexivity.
Defined.

(** C9 on a playlist path. *)
Lemma C9_witness :
  has_slash "index.m3u8" = false /\
  gopath_Dir ("/live" ++ "/" ++ "index.m3u8") = Clean ("/live" ++ "/").
Proof.
  split; [reflexivity|].
  apply (proj2 (proj2 (@C9_url_absolute_from_base Sample.libs))). reflexivity.
Defined.

(** C10 on an attempt whose PMT held no video. *)
Lemma C10_witness :
  unbound (si Sample.no_video_state) /\
  stream_ (si Sample.no_video_state) = None /\
  count is_ready (snd (run Sample.no_video_state)) = 0%nat.
Proof.
  assert (U : unbound (si Sample.no_video_state))
    by (repeat split; reflexivity).
  split; [exact U|]. split; [reflexivity|].
  destruct (run Sample.no_video_state) as [[r st'] t] eqn:E.
  exact (proj1 (proj2 (proj2 (proj2 (proj2 (@C10_pmt_without_video Sample.libs))
                                       _ _ _ _ U eq_refl E)))).
Defined.
